(** * chunk.go: a reader for IFF chunks over an [io.ReadSeeker]

    Shallow embedding of [src/chunk.go].  A Go [*Chunk] is a record that
    carries the state of the source it points to; every method takes the
    record and returns the results together with the updated record, so
    the mutation of [this.offset] and of the underlying [this.file] is
    explicit.  Go's fixed-width integers are [Z] with the conversions
    [uint32] and [int64] written at each place where the source converts
    or where its arithmetic can wrap. *)

From Stdlib Require Import ZArith List Lia Bool String.
From Stdlib.Strings Require Import Byte.
Import ListNotations.
Open Scope Z_scope.

(** ** Go integers *)

(** [uint32(x)]: the low 32 bits. *)
Definition uint32 (z : Z) : Z := z mod 2 ^ 32.

(** [int64(x)] and wrapping [int64] arithmetic: two's complement. *)
Definition int64 (z : Z) : Z := (z + 2 ^ 63) mod 2 ^ 64 - 2 ^ 63.

Definition is_uint32 (z : Z) : Prop := 0 <= z < 2 ^ 32.
Definition is_int64 (z : Z) : Prop := - 2 ^ 63 <= z < 2 ^ 63.

(** [len(b)] of a slice. *)
Definition len {A : Type} (b : list A) : Z := Z.of_nat (List.length b).

(** [uint32(b)] for a byte [b]. *)
Definition byte_val (b : byte) : Z := Z.of_N (Byte.to_N b).

(** ** Errors *)

(** [io.EOF], the value built by [errors.New("Invalid seek offset")] in
    [Seek], and whatever else a source may report. *)
Inductive error : Type :=
| EOF
| InvalidSeekOffset
| SourceError (msg : string).

(** ** [io.ReadSeeker] *)

(** [rs_Read s n] is [s.Read(buf)] for a buffer of length [n]: the bytes
    stored at the front of the buffer (their number is the count Go
    returns), the error, and the source afterwards.  [rs_Seek s off
    whence] is [s.Seek(off, whence)]. *)
Class ReadSeeker (S : Type) : Type := {
  rs_Read : S -> Z -> list byte * option error * S;
  rs_Seek : S -> Z -> Z -> Z * option error * S
}.

(** What [io.Reader] and [io.Seeker] promise, for a source that has an
    absolute position: a read never returns more bytes than the buffer
    holds and moves the position by the count it returns; [Seek(0, 1)]
    reports the position, which is never negative, and moves nothing. *)
Class LawfulSource (S : Type) {RS : ReadSeeker S} : Type := {
  position : S -> Z;
  Read_length : forall s n d e s',
      rs_Read s n = (d, e, s') -> len d <= Z.max 0 n;
  Read_position : forall s n d e s',
      rs_Read s n = (d, e, s') -> position s' = position s + len d;
  Seek_current : forall s,
      0 <= position s -> rs_Seek s 0 1 = (position s, None, s)
}.

(** ** [bytes.Reader]

    The source used throughout [chunk_test.go].  It is Go's standard
    library, not part of this package; this is its documented behaviour.
    The slice is given by its length and its element at each index. *)
Module bytes.

Record Reader : Type := mkReader {
  s_len : Z;
  s_at : Z -> byte;
  i : Z
}.

(** A reader over the slice [b] whose next byte is [b[pos]]. *)
Definition reading (b : list byte) (pos : Z) : Reader :=
  {| s_len := len b; s_at := fun k => nth (Z.to_nat k) b x00; i := pos |}.

Definition NewReader (b : list byte) : Reader := reading b 0.

Definition Read (r : Reader) (n : Z) : list byte * option error * Reader :=
  if s_len r <=? i r then ([], Some EOF, r)
  else
    let k := Z.to_nat (Z.min n (s_len r - i r)) in
    (map (fun j => s_at r (i r + Z.of_nat j)) (seq 0 k), None,
     {| s_len := s_len r; s_at := s_at r; i := i r + Z.of_nat k |}).

Definition Seek (r : Reader) (offset whence : Z) : Z * option error * Reader :=
  let abs :=
    match whence with
    | 0 => Some offset
    | 1 => Some (i r + offset)
    | 2 => Some (s_len r + offset)
    | _ => None
    end in
  match abs with
  | None => (0, Some (SourceError "bytes.Reader.Seek: invalid whence"), r)
  | Some abs =>
      if abs <? 0
      then (0, Some (SourceError "bytes.Reader.Seek: negative position"), r)
      else (abs, None, {| s_len := s_len r; s_at := s_at r; i := abs |})
  end.

End bytes.

#[export] Instance bytes_Reader_ReadSeeker : ReadSeeker bytes.Reader :=
  {| rs_Read := bytes.Read; rs_Seek := bytes.Seek |}.

(** A source that delivers bytes but whose [Seek] always fails, such as
    a pipe wrapped to satisfy the interface. *)
Record Unseekable : Type := mkUnseekable { pipe : bytes.Reader }.

Definition Unseekable_Read (u : Unseekable) (n : Z) :=
  let '(d, e, r) := bytes.Read (pipe u) n in (d, e, mkUnseekable r).

Definition Unseekable_Seek (u : Unseekable) (offset whence : Z)
  : Z * option error * Unseekable :=
  (0, Some (SourceError "illegal seek"), u).

#[export] Instance Unseekable_ReadSeeker : ReadSeeker Unseekable :=
  {| rs_Read := Unseekable_Read; rs_Seek := Unseekable_Seek |}.

(** ** The chunk *)

Record Chunk (S : Type) : Type := mkChunk {
  file : S;
  id : list byte;
  size : Z;
  base : Z;
  offset : Z
}.

Arguments mkChunk {S} _ _ _ _ _.
Arguments file {S} _.
Arguments id {S} _.
Arguments size {S} _.
Arguments base {S} _.
Arguments offset {S} _.

(** The fields hold values of their Go types. *)
Definition typed {S : Type} (c : Chunk S) : Prop :=
  is_uint32 (size c) /\ is_uint32 (base c) /\ is_uint32 (offset c).

Definition is_nil {A : Type} (o : option A) : bool :=
  match o with None => true | Some _ => false end.

(** [(uint32(b[0]) << 24) | (uint32(b[1]) << 16) | (uint32(b[2]) << 8) | uint32(b[3])] *)
Definition size_of_bits (sizeBits : list byte) : Z :=
  let b k := byte_val (nth k sizeBits x00) in
  Z.lor (Z.lor (Z.lor (uint32 (Z.shiftl (b 0%nat) 24))
                      (uint32 (Z.shiftl (b 1%nat) 16)))
               (uint32 (Z.shiftl (b 2%nat) 8)))
        (b 3%nat).

(** The big-endian value of four bytes, as the format defines it. *)
Definition big_endian_32 (b0 b1 b2 b3 : byte) : Z :=
  byte_val b0 * 2 ^ 24 + byte_val b1 * 2 ^ 16 + byte_val b2 * 2 ^ 8 + byte_val b3.

Section Methods.

Context {S : Type} {RS : ReadSeeker S}.

(** [func New(f io.ReadSeeker)], which returns a chunk pointer and an
    error.  The third component is the source after the call, which is
    also the [file] of the chunk when there is one. *)
Definition New (f : S) : option (Chunk S) * option error * S :=
  let '(id, err, f1) := rs_Read f 4 in
  if negb (len id =? 4) || negb (is_nil err) then (None, err, f1)
  else
    let '(sizeBits, err, f2) := rs_Read f1 4 in
    if negb (len sizeBits =? 4) || negb (is_nil err) then (None, err, f2)
    else
      let size := size_of_bits sizeBits in
      let '(base, _, f3) := rs_Seek f2 0 1 in
      (Some (mkChunk f3 id size (uint32 base) 0), None, f3).

Definition Name (this : Chunk S) : list byte := id this.

Definition Size (this : Chunk S) : Z := size this.

(** The offset [Seek] validates: lines 46-51. *)
Definition seek_target (this : Chunk S) (off whence : Z) : Z :=
  match whence with
  | 1 => int64 (off + offset this)
  | 2 => int64 (off + size this)
  | _ => off
  end.

(** [func (this Chunk) Seek(offset int64, whence int) (ret int64, err error)] *)
Definition Seek (this : Chunk S) (off whence : Z)
  : Z * option error * Chunk S :=
  let off := seek_target this off whence in
  if (off <? 0) || (off >? size this)
  then (offset this, Some InvalidSeekOffset, this)
  else
    let '(pos, err, f1) := rs_Seek (file this) (int64 (base this + off)) 0 in
    match err with
    | Some e =>
        (int64 (pos - base this), Some e,
         mkChunk f1 (id this) (size this) (base this) (offset this))
    | None =>
        (off, None,
         mkChunk f1 (id this) (size this) (base this) (uint32 off))
    end.

(** The position [Skip] hands to the source: lines 67-71. *)
Definition skip_pos (this : Chunk S) : Z :=
  let pos := uint32 (base this + size this) in
  if Z.land pos 1 =? 1 then uint32 (pos + 1) else pos.

(** [func (this Chunk) Skip()]: the result of the source's seek is
    dropped, only its effect on the source remains. *)
Definition Skip (this : Chunk S) : Chunk S :=
  let pos := skip_pos this in
  let '(_, _, f1) := rs_Seek (file this) pos 0 in
  mkChunk f1 (id this) (size this) (base this) (size this).

(** The length of the buffer [Read] hands to the source: lines 81-85. *)
Definition read_len (this : Chunk S) (n : Z) : Z :=
  let sz := uint32 n in
  if sz >? uint32 (size this - offset this)
  then uint32 (size this - offset this)
  else n.

(** [func (this Chunk) Read(buffer []byte) (n int, err error)], for a
    buffer of length [n]. *)
Definition Read (this : Chunk S) (n : Z)
  : list byte * option error * Chunk S :=
  if offset this =? size this then ([], Some EOF, this)
  else
    let '(d, err, f1) := rs_Read (file this) (read_len this n) in
    let off1 := uint32 (offset this + uint32 (len d)) in
    if (off1 =? size this) && (Z.land (size this) 1 =? 1)
    then
      let '(_, err1, f2) := rs_Seek f1 1 1 in
      let off2 := if is_nil err1 then uint32 (off1 + 1) else off1 in
      (d, err, mkChunk f2 (id this) (size this) (base this) off2)
    else
      (d, err, mkChunk f1 (id this) (size this) (base this) off1).

Definition IsTTY (this : Chunk S) : bool := false.

End Methods.

(** A chunk is itself an [io.ReadSeeker]: "An instance of Chunk is
    specifically allowed as the argument to New". *)
#[export] Instance Chunk_ReadSeeker {S : Type} {RS : ReadSeeker S}
  : ReadSeeker (Chunk S) :=
  {| rs_Read := Read; rs_Seek := Seek |}.

(** ** Sequences of operations *)

Inductive op : Type :=
| OpRead (n : Z)
| OpSeek (off whence : Z)
| OpSkip.

Definition step {S : Type} {RS : ReadSeeker S} (c : Chunk S) (o : op) : Chunk S :=
  match o with
  | OpRead n => snd (Read c n)
  | OpSeek off whence => snd (Seek c off whence)
  | OpSkip => Skip c
  end.

Definition run {S : Type} {RS : ReadSeeker S} (c : Chunk S) (ops : list op)
  : Chunk S :=
  fold_left step ops c.

(** ** The data of [chunk_test.go] *)

Definition b (n : N) : byte :=
  match Byte.of_N n with Some x => x | None => x00 end.

Definition testString : list byte :=
  [ "T"; "E"; "S"; "T"; b 0; b 0; b 0; b 2; b 42; b 24;
    "F"; "O"; "O"; " "; b 0; b 0; b 0; b 20;
    "I"; "N"; "1"; " "; b 0; b 0; b 0; b 1; b 255; b 0;
    "I"; "N"; "2"; " "; b 0; b 0; b 0; b 2; b 127; b 129 ]%byte.

(** A file that starts with an odd-sized chunk: the [IN1 ] and [IN2 ]
    chunks of [testString]. *)
Definition oddFile : list byte := skipn 18 testString.

(** A file whose first chunk header starts at offset 1. *)
Definition shiftedFile : list byte := b 0 :: testString.

(** A slice longer than 4 GiB, read from just below the 4 GiB mark. *)
Definition bigFile : bytes.Reader :=
  bytes.mkReader (2 ^ 32 + 16) (fun _ => x00) (2 ^ 32 - 8).

(** ** The arithmetic of the contracts, over the integers *)

(** The target of a seek: from-start, from-current (1), from-end (2). *)
Definition contract_target {S : Type} (c : Chunk S) (off whence : Z) : Z :=
  match whence with
  | 1 => offset c + off
  | 2 => size c + off
  | _ => off
  end.

Definition round_up_even (z : Z) : Z := if Z.odd z then z + 1 else z.

(** Where the contract of skip-to-end puts the source: [base + size],
    rounded up to even if and only if the size is odd. *)
Definition contract_skip_pos {S : Type} (c : Chunk S) : Z :=
  if Z.odd (size c) then round_up_even (base c + size c)
  else base c + size c.

(** The chunks [chunk_test.go] builds from [testString]: [TEST] at the
    start, and [FOO ] after [TEST] has been skipped. *)
Definition chunkTest : Chunk bytes.Reader :=
  mkChunk (bytes.reading testString 8) ["T"; "E"; "S"; "T"]%byte 2 8 0.

Definition chunkFoo : Chunk bytes.Reader :=
  mkChunk (bytes.reading testString 18) ["F"; "O"; "O"; " "]%byte 20 18 0.

(** The first chunk of [oddFile]: one byte of payload, then a pad byte. *)
Definition chunkOdd : Chunk bytes.Reader :=
  mkChunk (bytes.reading oddFile 8) ["I"; "N"; "1"; " "]%byte 1 8 0.

(** The chunk of [shiftedFile] whose header starts at offset 1. *)
Definition chunkShifted : Chunk bytes.Reader :=
  mkChunk (bytes.reading shiftedFile 9) ["T"; "E"; "S"; "T"]%byte 2 9 0.

(** [chunkFoo] over a source that cannot seek. *)
Definition chunkPipe : Chunk Unseekable :=
  mkChunk (mkUnseekable (bytes.reading testString 18))
          ["F"; "O"; "O"; " "]%byte 20 18 0.

(** [IN1 ], the first chunk inside [FOO ]: its source is [chunkFoo]
    with 8 bytes of its payload consumed. *)
Definition chunkIN1 : Chunk (Chunk bytes.Reader) :=
  mkChunk (mkChunk (bytes.reading testString 26) ["F"; "O"; "O"; " "]%byte
                   20 18 8)
          ["I"; "N"; "1"; " "]%byte 1 8 0.

(** [oddFile] with its first header at offset 1, and its first chunk. *)
Definition shiftedOddFile : list byte := b 0 :: oddFile.

Definition chunkShiftedOdd : Chunk bytes.Reader :=
  mkChunk (bytes.reading shiftedOddFile 9) ["I"; "N"; "1"; " "]%byte 1 9 0.

(** The first chunk of [oddFile] over a source that cannot seek. *)
Definition chunkOddPipe : Chunk Unseekable :=
  mkChunk (mkUnseekable (bytes.reading oddFile 8))
          ["I"; "N"; "1"; " "]%byte 1 8 0.

(** ** Histories of a chunk *)

(** The states a chunk passes through when every [Read] is given a
    buffer shorter than [2^32] and is issued with the cursor at or
    before the end of the chunk. *)
Inductive reach {S : Type} {RS : ReadSeeker S} (c0 : Chunk S)
  : Chunk S -> Prop :=
| reach_New : reach c0 c0
| reach_Seek (c : Chunk S) (off whence : Z) :
    reach c0 c -> reach c0 (snd (Seek c off whence))
| reach_Skip (c : Chunk S) :
    reach c0 c -> reach c0 (Skip c)
| reach_Read (c : Chunk S) (n : Z) :
    reach c0 c -> 0 <= n < 2 ^ 32 -> offset c <= size c ->
    reach c0 (snd (Read c n)).

(** What holds of the cursor along a history: it is inside the chunk, or
    one past the end of an odd-sized chunk. *)
Definition cursor_ok {S : Type} (c : Chunk S) : Prop :=
  offset c <= size c \/ (Z.odd (size c) = true /\ offset c = size c + 1).

(** ** A chunk over a [bytes.Reader] *)

(** [k] bytes of the slice that [r] reads, from index [from]. *)
Definition slice (r : bytes.Reader) (from k : Z) : list byte :=
  map (fun j => bytes.s_at r (from + Z.of_nat j)) (seq 0 (Z.to_nat k)).

(** The reader [r] moved to index [pos]. *)
Definition moved (r : bytes.Reader) (pos : Z) : bytes.Reader :=
  bytes.mkReader (bytes.s_len r) (bytes.s_at r) pos.

(** The source stands where the cursor says. *)
Definition in_step (c : Chunk bytes.Reader) : Prop :=
  bytes.i (file c) = base c + offset c.

(** The source stands where [Skip] put it. *)
Definition skipped (c : Chunk bytes.Reader) : Prop :=
  offset c = size c /\ bytes.i (file c) = skip_pos c.

(** The extra step of lines 90-94 after a read that ends at cursor
    [off]: 1 when the chunk is odd-sized and drained, else 0. *)
Definition pad_step {S : Type} (c : Chunk S) (off : Z) : Z :=
  if (off =? size c) && Z.odd (size c) then 1 else 0.

(** * Properties *)

(** ** Integer conversions *)

Lemma uint32_small (z : Z) : is_uint32 z -> uint32 z = z.
Proof. unfold is_uint32, uint32. intros Hz. apply Z.mod_small. exact Hz. Qed.

Lemma uint32_range (z : Z) : is_uint32 (uint32 z).
Proof. unfold is_uint32, uint32. apply Z.mod_pos_bound. lia. Qed.

Lemma int64_small (z : Z) : is_int64 z -> int64 z = z.
Proof.
  unfold is_int64, int64. intros Hz.
  rewrite Z.mod_small by lia. lia.
Qed.

Lemma int64_range (z : Z) : is_int64 (int64 z).
Proof.
  unfold is_int64, int64.
  pose proof (Z.mod_pos_bound (z + 2 ^ 63) (2 ^ 64) ltac:(lia)). lia.
Qed.

(** An [int64] sum that overflows upwards comes out negative. *)
Lemma int64_overflow (z : Z) : 2 ^ 63 <= z < 2 ^ 64 -> int64 z = z - 2 ^ 64.
Proof.
  unfold int64. intros Hz.
  replace (z + 2 ^ 63) with (z - 2 ^ 63 + 1 * 2 ^ 64) by lia.
  rewrite Z.mod_add by lia. rewrite Z.mod_small by lia. lia.
Qed.

Lemma len_nonneg {A : Type} (l : list A) : 0 <= len l.
Proof. unfold len. lia. Qed.

Lemma byte_val_range (x : byte) : 0 <= byte_val x < 256.
Proof. unfold byte_val. pose proof (Byte.to_N_bounded x). lia. Qed.

(** [x << k | y] adds when [y] fits below bit [k]. *)
Lemma lor_shiftl_add (x y k : Z) :
  0 <= k -> 0 <= y < 2 ^ k -> Z.lor (Z.shiftl x k) y = x * 2 ^ k + y.
Proof.
  intros Hk Hy.
  assert (Hland : Z.land (Z.shiftl x k) y = 0).
  { apply Z.bits_inj'; intros n Hn.
    rewrite Z.land_spec, Z.bits_0.
    destruct (Z.ltb_spec n k) as [Hlt | Hge].
    - rewrite Z.shiftl_spec_low by exact Hlt. reflexivity.
    - destruct (Z.eq_dec y 0) as [-> | Hy0].
      + rewrite Z.bits_0. apply andb_false_r.
      + rewrite (Z.bits_above_log2 y n); [ apply andb_false_r | lia | ].
        apply Z.lt_le_trans with k; [ | exact Hge ].
        apply Z.log2_lt_pow2; [ lia | apply Hy ]. }
  pose proof (Z.add_lor_land (Z.shiftl x k) y) as Hadd.
  rewrite Hland in Hadd. rewrite <- Z.shiftl_mul_pow2 by exact Hk. lia.
Qed.

(** The expression of line 29 computes the big-endian value. *)
Lemma size_of_bits_big_endian (b0 b1 b2 b3 : byte) :
  size_of_bits [b0; b1; b2; b3] = big_endian_32 b0 b1 b2 b3.
Proof.
  unfold size_of_bits, big_endian_32. cbn [nth].
  pose proof (byte_val_range b0). pose proof (byte_val_range b1).
  pose proof (byte_val_range b2). pose proof (byte_val_range b3).
  assert (Hu : forall x k, 0 <= x < 256 -> 0 <= k <= 24 ->
                      uint32 (Z.shiftl x k) = Z.shiftl x k).
  { intros x k Hx Hk. apply uint32_small. unfold is_uint32.
    rewrite Z.shiftl_mul_pow2 by lia.
    assert (2 ^ k <= 2 ^ 24) by (apply Z.pow_le_mono_r; lia).
    assert (0 < 2 ^ k) by (apply Z.pow_pos_nonneg; lia). nia. }
  rewrite !Hu by lia.
  rewrite (Z.shiftl_mul_pow2 (byte_val b1)), (Z.shiftl_mul_pow2 (byte_val b2))
    by lia.
  rewrite (lor_shiftl_add (byte_val b0) _ 24) by lia.
  set (hi := byte_val b0 * 2 ^ 8 + byte_val b1).
  replace (byte_val b0 * 2 ^ 24 + byte_val b1 * 2 ^ 16)
    with (Z.shiftl hi 16) by (rewrite Z.shiftl_mul_pow2; unfold hi; lia).
  rewrite (lor_shiftl_add hi _ 16) by lia.
  set (mid := hi * 2 ^ 8 + byte_val b2).
  replace (hi * 2 ^ 16 + byte_val b2 * 2 ^ 8)
    with (Z.shiftl mid 8) by (rewrite Z.shiftl_mul_pow2; unfold mid; lia).
  rewrite (lor_shiftl_add mid _ 8) by lia.
  unfold mid, hi. rewrite ?Z.shiftl_mul_pow2 by lia. lia.
Qed.

(** ** [bytes.Reader] keeps the promises of a source *)

Lemma len_map_seq {A : Type} (f : nat -> A) (k : nat) :
  len (map f (seq 0 k)) = Z.of_nat k.
Proof. unfold len. rewrite length_map, length_seq. reflexivity. Qed.

Lemma bytes_Read_length (r : bytes.Reader) (n : Z) d e r' :
  bytes.Read r n = (d, e, r') -> len d <= Z.max 0 n.
Proof.
  unfold bytes.Read. destruct (bytes.s_len r <=? bytes.i r).
  - intros [= <- _ _]. cbn. lia.
  - intros [= <- _ _]. rewrite len_map_seq. lia.
Qed.

Lemma bytes_Read_position (r : bytes.Reader) (n : Z) d e r' :
  bytes.Read r n = (d, e, r') -> bytes.i r' = bytes.i r + len d.
Proof.
  unfold bytes.Read. destruct (bytes.s_len r <=? bytes.i r).
  - intros [= <- _ <-]. cbn. lia.
  - intros [= <- _ <-]. rewrite len_map_seq. reflexivity.
Qed.

Lemma bytes_Seek_current (r : bytes.Reader) :
  0 <= bytes.i r -> bytes.Seek r 0 1 = (bytes.i r, None, r).
Proof.
  intros Hi. unfold bytes.Seek. rewrite Z.add_0_r.
  destruct (Z.ltb_spec (bytes.i r) 0) as [Hneg | _]; [ lia | ].
  destruct r; reflexivity.
Qed.

(** With [n] bytes left, a read of [n] delivers exactly those bytes. *)
Lemma bytes_Read_available (r : bytes.Reader) (n : Z) :
  0 < n -> bytes.i r + n <= bytes.s_len r ->
  exists d, bytes.Read r n
            = (d, None, bytes.mkReader (bytes.s_len r) (bytes.s_at r)
                                       (bytes.i r + n))
            /\ len d = n.
Proof.
  intros Hn Hav. unfold bytes.Read.
  destruct (Z.leb_spec (bytes.s_len r) (bytes.i r)) as [Hle | _]; [ lia | ].
  rewrite Z.min_l by lia. rewrite Z2Nat.id by lia.
  eexists. split; [ reflexivity | ].
  rewrite len_map_seq. lia.
Qed.

#[export, refine] Instance bytes_Reader_Lawful : LawfulSource bytes.Reader :=
  {| position := bytes.i |}.
Proof.
  - exact bytes_Read_length.
  - exact bytes_Read_position.
  - exact bytes_Seek_current.
Defined.

(** ** Construction *)

Lemma len_4 {A : Type} (l : list A) :
  len l = 4 -> exists a0 a1 a2 a3, l = [a0; a1; a2; a3].
Proof.
  unfold len. intros Hl.
  destruct l as [| a0 [| a1 [| a2 [| a3 [| a4 l]]]]]; cbn in Hl; try lia.
  now exists a0, a1, a2, a3.
Qed.

Section Construction.

Context {S : Type} {RS : ReadSeeker S} {LS : LawfulSource S}.

(** A header read that comes back short, or with an error, ends [New]
    with no chunk and with whatever error that read returned. *)
Lemma New_tag_not_read (f f1 : S) (tag : list byte) (err : option error) :
  rs_Read f 4 = (tag, err, f1) ->
  len tag <> 4 \/ err <> None ->
  New f = (None, err, f1).
Proof.
  intros Hread Hshort. unfold New. rewrite Hread.
  destruct (Z.eqb_spec (len tag) 4) as [Heq | Hne]; cbn; [ | reflexivity ].
  destruct err as [e |]; cbn; [ reflexivity | ].
  destruct Hshort as [Hs | Hs]; [ lia | congruence ].
Qed.

(** With both header reads delivering four bytes, [New] builds the chunk
    from what the reads and the position query returned. *)
Lemma New_header_read (f f1 f2 f3 : S) (tag sizeBits : list byte) (pos : Z)
      (err : option error) :
  rs_Read f 4 = (tag, None, f1) -> len tag = 4 ->
  rs_Read f1 4 = (sizeBits, None, f2) -> len sizeBits = 4 ->
  rs_Seek f2 0 1 = (pos, err, f3) ->
  New f = (Some (mkChunk f3 tag (size_of_bits sizeBits) (uint32 pos) 0),
           None, f3).
Proof.
  intros Hr1 Hl1 Hr2 Hl2 Hseek. unfold New.
  rewrite Hr1, Hl1. cbn. rewrite Hr2, Hl2. cbn. rewrite Hseek. reflexivity.
Qed.

(** C6 (as the code has it): when both header reads deliver their four
    bytes, [New] returns a chunk over the source as the reads left it,
    whose tag is the bytes of the first read unchanged, whose size is
    the big-endian value of the bytes of the second read, whose cursor
    is 0 and whose base is the low 32 bits of the source's position
    after the header; that position is 8 past the starting one. *)
Theorem C6_New_reads_header (f f1 f2 : S) (tag sizeBits : list byte) :
  0 <= position f ->
  rs_Read f 4 = (tag, None, f1) -> len tag = 4 ->
  rs_Read f1 4 = (sizeBits, None, f2) -> len sizeBits = 4 ->
  exists b0 b1 b2 b3,
    sizeBits = [b0; b1; b2; b3] /\
    New f = (Some (mkChunk f2 tag (big_endian_32 b0 b1 b2 b3)
                           (uint32 (position f2)) 0), None, f2) /\
    position f2 = position f + 8.
Proof.
  intros Hpos Hr1 Hl1 Hr2 Hl2.
  destruct (len_4 sizeBits Hl2) as (b0 & b1 & b2 & b3 & ->).
  exists b0, b1, b2, b3.
  pose proof (Read_position _ _ _ _ _ Hr1) as Hp1.
  pose proof (Read_position _ _ _ _ _ Hr2) as Hp2.
  assert (Hp : position f2 = position f + 8) by lia.
  repeat split; [ | exact Hp ].
  assert (Hseek : rs_Seek f2 0 1 = (position f2, None, f2))
    by (apply Seek_current; lia).
  rewrite (New_header_read f f1 f2 f2 tag [b0; b1; b2; b3] (position f2) None
             Hr1 Hl1 Hr2 Hl2 Hseek).
  rewrite size_of_bits_big_endian. reflexivity.
Qed.

End Construction.

(** [C6_New_reads_header] on the first chunk of [testString]. *)
Lemma C6_New_reads_header_witness :
  exists b0 b1 b2 b3,
    [b 0; b 0; b 0; b 2] = [b0; b1; b2; b3] /\
    New (bytes.NewReader testString)
    = (Some (mkChunk (bytes.reading testString 8) ["T"; "E"; "S"; "T"]%byte
                     (big_endian_32 b0 b1 b2 b3)
                     (uint32 (position (bytes.reading testString 8))) 0),
       None, bytes.reading testString 8) /\
    position (bytes.reading testString 8)
    = position (bytes.NewReader testString) + 8.
Proof.
  apply (C6_New_reads_header (bytes.NewReader testString)
           (bytes.reading testString 4) (bytes.reading testString 8)
           ["T"; "E"; "S"; "T"]%byte [b 0; b 0; b 0; b 2]).
  - cbn. lia.
  - reflexivity.
  - reflexivity.
  - reflexivity.
  - reflexivity.
Defined.

(** On a [bytes.Reader] with eight bytes left both header reads deliver,
    so construction succeeds there. *)
Lemma New_bytes_available (r : bytes.Reader) :
  0 <= bytes.i r -> bytes.i r + 8 <= bytes.s_len r ->
  exists c, New r = (Some c, None, file c) /\
            bytes.i (file c) = bytes.i r + 8 /\
            base c = uint32 (bytes.i r + 8) /\ offset c = 0.
Proof.
  intros Hi Hav.
  destruct (bytes_Read_available r 4) as (tag & Hr1 & Hl1); [ lia | lia | ].
  set (r1 := bytes.mkReader (bytes.s_len r) (bytes.s_at r) (bytes.i r + 4)) in *.
  destruct (bytes_Read_available r1 4) as (bits & Hr2 & Hl2);
    [ lia | cbn; lia | ].
  set (r2 := bytes.mkReader (bytes.s_len r1) (bytes.s_at r1) (bytes.i r1 + 4)) in *.
  assert (Hseek : bytes.Seek r2 0 1 = (bytes.i r2, None, r2))
    by (apply bytes_Seek_current; cbn; lia).
  exists (mkChunk r2 tag (size_of_bits bits) (uint32 (bytes.i r2)) 0).
  split.
  - apply (New_header_read r r1 r2 r2 tag bits (bytes.i r2) None);
      assumption.
  - cbn. repeat split; [ lia | ].
    replace (bytes.i r + 4 + 4) with (bytes.i r + 8) by lia. reflexivity.
Qed.

(** C6, counterexample: eight header bytes are available at offset
    [2^32 - 8]; the chunk is built and the source then stands at [2^32],
    but the recorded base is 0. *)
Lemma C6_base_is_position_counterexample :
  exists c f',
    New bigFile = (Some c, None, f') /\
    position f' = position bigFile + 8 /\
    base c <> position f'.
Proof.
  eexists. eexists. split; [ vm_compute; reflexivity | ].
  split; [ vm_compute; reflexivity | ]. vm_compute. discriminate.
Qed.

(** The same for the size field. *)
Lemma New_size_not_read {S : Type} {RS : ReadSeeker S} (f f1 f2 : S)
      (tag sizeBits : list byte) (err : option error) :
  rs_Read f 4 = (tag, None, f1) -> len tag = 4 ->
  rs_Read f1 4 = (sizeBits, err, f2) ->
  len sizeBits <> 4 \/ err <> None ->
  New f = (None, err, f2).
Proof.
  intros Hr1 Hl1 Hr2 Hshort. unfold New. rewrite Hr1, Hl1. cbn. rewrite Hr2.
  destruct (Z.eqb_spec (len sizeBits) 4) as [Heq | Hne]; cbn; [ | reflexivity ].
  destruct err as [e |]; cbn; [ reflexivity | ].
  destruct Hshort as [Hs | Hs]; [ lia | congruence ].
Qed.

(** C3 (the code at the failing inputs): a source that holds two bytes
    returns them to the tag read with no error, a source that holds six
    returns two to the size read with no error; in both cases [New]
    returns neither a chunk nor an error. *)
Theorem C3_partial_header_no_error :
  fst (bytes.Read (bytes.NewReader ["T"; "E"]%byte) 4)
  = (["T"; "E"]%byte, None) /\
  New (bytes.NewReader ["T"; "E"]%byte)
  = (None, None, bytes.reading ["T"; "E"]%byte 2) /\
  fst (bytes.Read (bytes.reading ["T"; "E"; "S"; "T"; b 0; b 0]%byte 4) 4)
  = ([b 0; b 0], None) /\
  New (bytes.NewReader ["T"; "E"; "S"; "T"; b 0; b 0]%byte)
  = (None, None, bytes.reading ["T"; "E"; "S"; "T"; b 0; b 0]%byte 6).
Proof.
  split; [ reflexivity | split ].
  - apply (New_tag_not_read _ _ ["T"; "E"]%byte None); [ reflexivity | ].
    left. cbn. lia.
  - split; [ reflexivity | ].
    apply (New_size_not_read
             (bytes.NewReader ["T"; "E"; "S"; "T"; b 0; b 0]%byte)
             (bytes.reading ["T"; "E"; "S"; "T"; b 0; b 0]%byte 4)
             (bytes.reading ["T"; "E"; "S"; "T"; b 0; b 0]%byte 6)
             ["T"; "E"; "S"; "T"]%byte [b 0; b 0] None);
      [ reflexivity | reflexivity | reflexivity | left; cbn; lia ].
Qed.

(** An exhausted source, by contrast, is reported as [io.EOF]. *)
Lemma New_at_end_EOF :
  New (bytes.NewReader []) = (None, Some EOF, bytes.NewReader []).
Proof. reflexivity. Qed.

(** ** Seek *)

Section SeekProperties.

Context {S : Type} {RS : ReadSeeker S}.

(** The wrapped sum of lines 46-51 is out of range exactly when the
    true sum is: an [int64] overflow can only come out negative. *)
Lemma seek_target_in_range (c : Chunk S) (off whence : Z) :
  typed c -> is_int64 off ->
  0 <= contract_target c off whence <= size c ->
  seek_target c off whence = contract_target c off whence.
Proof.
  intros (Hs & _ & Ho) Hoff Ht. unfold is_uint32, is_int64 in *.
  unfold seek_target, contract_target in *.
  destruct whence as [| [p | [p | p |] |] | p];
    cbv beta iota in Ht |- *; try reflexivity.
  - rewrite int64_small; [ lia | unfold is_int64; lia ].
  - rewrite int64_small; [ lia | unfold is_int64; lia ].
Qed.

Lemma seek_target_out_of_range (c : Chunk S) (off whence : Z) :
  typed c -> is_int64 off ->
  contract_target c off whence < 0 \/ size c < contract_target c off whence ->
  seek_target c off whence < 0 \/ size c < seek_target c off whence.
Proof.
  intros (Hs & _ & Ho) Hoff Ht. unfold is_uint32, is_int64 in *.
  unfold seek_target, contract_target in *.
  destruct whence as [| [p | [p | p |] |] | p];
    cbv beta iota in Ht |- *; try exact Ht.
  - destruct (Z_lt_ge_dec (off + size c) (2 ^ 63)) as [Hin | Hov].
    + rewrite int64_small by (unfold is_int64; lia). lia.
    + rewrite int64_overflow by lia. lia.
  - destruct (Z_lt_ge_dec (off + offset c) (2 ^ 63)) as [Hin | Hov].
    + rewrite int64_small by (unfold is_int64; lia). lia.
    + rewrite int64_overflow by lia. lia.
Qed.

(** C7: with the target computed from [(offset, whence)] as the contract
    says and lying in [[0, size]], [Seek] makes one call on the source,
    an absolute seek to [base + target]; if that succeeds the cursor is
    the target and the target is returned, and the source is as that one
    call left it, whatever the parity of the size. *)
Theorem C7_Seek_within_bounds (c : Chunk S) (off whence : Z) :
  typed c -> is_int64 off ->
  0 <= contract_target c off whence <= size c ->
  Seek c off whence =
  let t := contract_target c off whence in
  let '(pos, err, f1) := rs_Seek (file c) (base c + t) 0 in
  match err with
  | None => (t, None, mkChunk f1 (id c) (size c) (base c) t)
  | Some e => (int64 (pos - base c), Some e,
               mkChunk f1 (id c) (size c) (base c) (offset c))
  end.
Proof.
  intros Hc Hoff Ht. unfold Seek.
  rewrite (seek_target_in_range c off whence Hc Hoff Ht).
  set (t := contract_target c off whence) in *. cbv zeta.
  destruct Hc as (Hs & Hb & _). unfold is_uint32 in *.
  destruct (Z.ltb_spec t 0) as [Hneg | _]; [ lia | ].
  destruct (Z.gtb_spec t (size c)) as [Hbig | _]; [ lia | ]. cbn [orb].
  rewrite int64_small by (unfold is_int64; lia).
  rewrite uint32_small by (unfold is_uint32; lia).
  reflexivity.
Qed.

(** C8: a target below 0 or above the size makes [Seek] return the
    unchanged cursor with the invalid-offset error; the chunk, and with
    it the source, is exactly as before. *)
Theorem C8_Seek_out_of_bounds (c : Chunk S) (off whence : Z) :
  typed c -> is_int64 off ->
  contract_target c off whence < 0 \/ size c < contract_target c off whence ->
  Seek c off whence = (offset c, Some InvalidSeekOffset, c).
Proof.
  intros Hc Hoff Ht. unfold Seek.
  destruct (seek_target_out_of_range c off whence Hc Hoff Ht) as [Hneg | Hbig].
  - destruct (Z.ltb_spec (seek_target c off whence) 0); [ reflexivity | lia ].
  - destruct (Z.gtb_spec (seek_target c off whence) (size c)); [ | lia ].
    rewrite orb_true_r. reflexivity.
Qed.

(** C9: a whence other than 1 and 2 is handled as whence 0 is. *)
Theorem C9_Seek_unknown_whence (c : Chunk S) (off whence : Z) :
  whence <> 1 -> whence <> 2 ->
  seek_target c off whence = off /\ Seek c off whence = Seek c off 0.
Proof.
  intros H1 H2.
  assert (Ht : seek_target c off whence = off).
  { unfold seek_target.
    destruct whence as [| [p | [p | p |] |] | p]; try reflexivity; congruence. }
  split; [ exact Ht | ]. unfold Seek. rewrite Ht. reflexivity.
Qed.

End SeekProperties.

Ltac typed_chunk := unfold typed, is_uint32; cbn; lia.

Lemma chunkTest_constructed :
  New (bytes.NewReader testString) = (Some chunkTest, None, file chunkTest).
Proof. reflexivity. Qed.

Lemma chunkFoo_constructed :
  New (file (Skip chunkTest)) = (Some chunkFoo, None, file chunkFoo).
Proof. reflexivity. Qed.

Lemma chunkOdd_constructed :
  New (bytes.NewReader oddFile) = (Some chunkOdd, None, file chunkOdd).
Proof. reflexivity. Qed.

Lemma chunkShifted_constructed :
  New (bytes.reading shiftedFile 1)
  = (Some chunkShifted, None, file chunkShifted).
Proof. reflexivity. Qed.

(** [C7_Seek_within_bounds] on the from-end seek of [TestSeek]: 3 before
    the end of the 20-byte chunk is offset 17, file offset 35. *)
Lemma C7_Seek_within_bounds_witness :
  Seek chunkFoo (-3) 2
  = (17, None,
     mkChunk (bytes.reading testString 35) (id chunkFoo) 20 18 17).
Proof.
  rewrite (C7_Seek_within_bounds chunkFoo (-3) 2).
  - reflexivity.
  - typed_chunk.
  - unfold is_int64. lia.
  - cbn. lia.
Defined.

(** [C8_Seek_out_of_bounds] one past the end of [chunkFoo]. *)
Lemma C8_Seek_out_of_bounds_witness :
  Seek chunkFoo 21 0 = (0, Some InvalidSeekOffset, chunkFoo).
Proof.
  apply (C8_Seek_out_of_bounds chunkFoo 21 0).
  - typed_chunk.
  - unfold is_int64. lia.
  - cbn. lia.
Defined.

(** [C9_Seek_unknown_whence] with whence 3. *)
Lemma C9_Seek_unknown_whence_witness :
  seek_target chunkFoo 5 3 = 5 /\ Seek chunkFoo 5 3 = Seek chunkFoo 5 0.
Proof. apply (C9_Seek_unknown_whence chunkFoo 5 3); lia. Defined.

(** Whence -1 and a seek that lands on the end of an odd-sized chunk:
    the source stands on the pad byte, not after it. *)
Example Seek_whence_minus_one :
  fst (Seek chunkFoo 8 (-1)) = (8, None).
Proof. reflexivity. Qed.

Example Seek_to_end_of_odd_chunk :
  let '(ret, err, c) := Seek chunkOdd 0 2 in
  (ret, err, offset c, position (file c)) = (1, None, 1, 9).
Proof. reflexivity. Qed.

(** ** Skip *)

Lemma land_1_odd (z : Z) : (Z.land z 1 =? 1) = Z.odd z.
Proof.
  change 1 with (Z.ones 1) at 1. rewrite Z.land_ones by lia.
  change (2 ^ 1) with 2. rewrite Zmod_odd.
  destruct (Z.odd z); reflexivity.
Qed.

Lemma odd_sum (x y : Z) : Z.odd (x + y) = xorb (Z.odd x) (Z.odd y).
Proof. apply Z.odd_add. Qed.

Section SkipProperties.

Context {S : Type} {RS : ReadSeeker S}.

Lemma Skip_fields (c : Chunk S) :
  Skip c = mkChunk (snd (rs_Seek (file c) (skip_pos c) 0))
                   (id c) (size c) (base c) (size c).
Proof.
  unfold Skip. destruct (rs_Seek (file c) (skip_pos c) 0) as [[pos err] f1].
  reflexivity.
Qed.

(** Line 69 looks at the parity of [base + size]. *)
Lemma skip_pos_round_up (c : Chunk S) :
  typed c -> base c + size c + 1 < 2 ^ 32 ->
  skip_pos c = round_up_even (base c + size c).
Proof.
  intros (Hs & Hb & _) Hfit. unfold is_uint32 in *.
  unfold skip_pos, round_up_even. cbv zeta.
  rewrite (uint32_small (base c + size c)) by (unfold is_uint32; lia).
  rewrite land_1_odd.
  destruct (Z.odd (base c + size c)); [ | reflexivity ].
  apply uint32_small. unfold is_uint32. lia.
Qed.

(** An exhausted chunk reads as end-of-stream and stays as it is. *)
Lemma Read_exhausted (c : Chunk S) (n : Z) :
  offset c = size c -> Read c n = ([], Some EOF, c).
Proof. intros Heq. unfold Read. rewrite Heq, Z.eqb_refl. reflexivity. Qed.

(** C10: [Skip] has no result; whatever the source answers to the seek,
    the cursor is the size afterwards, so every read that follows
    returns no bytes and [io.EOF] and leaves the chunk as it is. *)
Theorem C10_Skip_ignores_seek_failure (c : Chunk S) :
  offset (Skip c) = size (Skip c) /\
  size (Skip c) = size c /\
  (forall n, Read (Skip c) n = ([], Some EOF, Skip c)) /\
  (forall ns, run (Skip c) (map OpRead ns) = Skip c).
Proof.
  assert (Hoff : offset (Skip c) = size (Skip c))
    by (rewrite Skip_fields; reflexivity).
  assert (Hread : forall n, Read (Skip c) n = ([], Some EOF, Skip c))
    by (intros n; apply Read_exhausted, Hoff).
  repeat split; [ exact Hoff | rewrite Skip_fields; reflexivity | exact Hread | ].
  induction ns as [| n ns IH]; [ reflexivity | ].
  cbn [map]. unfold run in *. cbn [fold_left step]. rewrite Hread. exact IH.
Qed.

End SkipProperties.

Example Skip_chunkTest_position : position (file (Skip chunkTest)) = 10.
Proof. reflexivity. Qed.

(** C4 (the code at the failing input): the chunk of [shiftedFile] has
    base 9 and size 2, so its payload ends at offset 11, where the
    header of [FOO ] starts and where the contract puts the source.
    A [Read] of the payload leaves the source there; [Skip] leaves it at
    12, and the next construction takes its tag from the middle of the
    header. *)
Theorem C4_Skip_odd_base :
  New (bytes.reading shiftedFile 1)
  = (Some chunkShifted, None, file chunkShifted) /\
  (base chunkShifted, size chunkShifted) = (9, 2) /\
  contract_skip_pos chunkShifted = 11 /\
  position (file (snd (Read chunkShifted 2))) = 11 /\
  option_map Name (fst (fst (New (file (snd (Read chunkShifted 2))))))
  = Some ["F"; "O"; "O"; " "]%byte /\
  position (file (Skip chunkShifted)) = 12 /\
  option_map Name (fst (fst (New (file (Skip chunkShifted)))))
  = Some ["O"; "O"; " "; b 0]%byte.
Proof.
  split; [ reflexivity | ]. split; [ reflexivity | ].
  split; [ reflexivity | ].
  assert (Hread : position (file (snd (Read chunkShifted 2))) = 11)
    by reflexivity.
  assert (Hskip : position (file (Skip chunkShifted)) = 12) by reflexivity.
  repeat split; try assumption; reflexivity.
Qed.

(** With an odd base and an odd size [Skip] stops one short instead: on
    the pad byte, where [Read] goes past it. *)
Example Skip_odd_base_odd_size :
  New (bytes.reading shiftedOddFile 1)
  = (Some chunkShiftedOdd, None, file chunkShiftedOdd) /\
  position (file (snd (Read chunkShiftedOdd 1))) = 11 /\
  option_map Name (fst (fst (New (file (snd (Read chunkShiftedOdd 1))))))
  = Some ["I"; "N"; "2"; " "]%byte /\
  position (file (Skip chunkShiftedOdd)) = 10 /\
  option_map Name (fst (fst (New (file (Skip chunkShiftedOdd)))))
  = Some [b 0; "I"; "N"; "2"]%byte.
Proof. repeat split. Qed.

(** A declared size that carries [base + size] past 32 bits sends the
    source backwards. *)
Example Skip_wraps :
  position (file (Skip (mkChunk (bytes.reading testString 8) [] (2 ^ 32 - 2) 8 0)))
  = 6.
Proof. vm_compute. reflexivity. Qed.

(** On a source whose seek fails, [Skip] leaves the source where it was
    and the chunk reads as exhausted all the same. *)
Example Skip_on_unseekable :
  file (Skip chunkPipe) = file chunkPipe /\
  offset (Skip chunkPipe) = 20 /\
  fst (Read (Skip chunkPipe) 10) = ([], Some EOF).
Proof. repeat split. Qed.

(** ** Read *)

Lemma size_of_bits_range (sizeBits : list byte) :
  len sizeBits = 4 -> is_uint32 (size_of_bits sizeBits).
Proof.
  intros Hl. destruct (len_4 sizeBits Hl) as (b0 & b1 & b2 & b3 & ->).
  rewrite size_of_bits_big_endian. unfold big_endian_32, is_uint32.
  pose proof (byte_val_range b0). pose proof (byte_val_range b1).
  pose proof (byte_val_range b2). pose proof (byte_val_range b3). lia.
Qed.

(** A chunk that [New] returns has fields of their types and cursor 0. *)
Lemma New_typed {S : Type} {RS : ReadSeeker S} (f f' : S) (c : Chunk S)
      (e : option error) :
  New f = (Some c, e, f') -> typed c /\ offset c = 0.
Proof.
  unfold New.
  destruct (rs_Read f 4) as [[tag err] f1].
  destruct (negb (len tag =? 4) || negb (is_nil err)); [ discriminate | ].
  destruct (rs_Read f1 4) as [[sizeBits err2] f2].
  destruct (Z.eqb_spec (len sizeBits) 4) as [Hl | Hl]; cbn [negb orb];
    [ | discriminate ].
  destruct (negb (is_nil err2)); [ discriminate | ].
  destruct (rs_Seek f2 0 1) as [[pos err3] f3].
  intros [= <- _ _]. unfold typed. cbn.
  repeat split; try apply size_of_bits_range; try apply uint32_range;
    try exact Hl; unfold is_uint32; lia.
Qed.

Section ReadProperties.

Context {S : Type} {RS : ReadSeeker S} {LS : LawfulSource S}.

(** Lines 81-85 for a buffer shorter than [2^32], before the end. *)
Lemma read_len_min (c : Chunk S) (n : Z) :
  typed c -> offset c < size c -> 0 <= n < 2 ^ 32 ->
  read_len c n = Z.min n (size c - offset c).
Proof.
  intros (Hs & _ & Ho) Hlt Hn. unfold is_uint32 in *. unfold read_len.
  cbv zeta. rewrite !uint32_small by (unfold is_uint32; lia).
  destruct (Z.gtb_spec n (size c - offset c)); lia.
Qed.

(** One [Read] before the end of the chunk, in full. *)
Lemma Read_before_end (c c' : Chunk S) (n : Z) (d : list byte)
      (e : option error) :
  typed c -> offset c < size c -> 0 <= n < 2 ^ 32 ->
  Read c n = (d, e, c') ->
  exists f1,
    rs_Read (file c) (Z.min n (size c - offset c)) = (d, e, f1) /\
    len d <= Z.min n (size c - offset c) /\
    id c' = id c /\ size c' = size c /\ base c' = base c /\
    offset c'
    = (if (offset c + len d =? size c) && Z.odd (size c)
          && is_nil (snd (fst (rs_Seek f1 1 1)))
       then uint32 (size c + 1) else offset c + len d) /\
    file c'
    = (if (offset c + len d =? size c) && Z.odd (size c)
       then snd (rs_Seek f1 1 1) else f1).
Proof.
  intros Hc Hlt Hn. pose proof Hc as (Hs & _ & Ho). unfold is_uint32 in *.
  unfold Read.
  destruct (Z.eqb_spec (offset c) (size c)) as [Heq | _]; [ lia | ].
  rewrite (read_len_min c n Hc Hlt Hn).
  destruct (rs_Read (file c) (Z.min n (size c - offset c)))
    as [[d0 e0] f1] eqn:Hr.
  pose proof (Read_length _ _ _ _ _ Hr) as Hlen.
  pose proof (len_nonneg d0) as Hd0.
  rewrite (uint32_small (len d0)) by (unfold is_uint32; lia).
  rewrite (uint32_small (offset c + len d0)) by (unfold is_uint32; lia).
  rewrite land_1_odd.
  destruct ((offset c + len d0 =? size c) && Z.odd (size c)) eqn:Hpad.
  - destruct (rs_Seek f1 1 1) as [[p e1] f2] eqn:Hseek.
    intros [= <- <- <-]. exists f1. rewrite Hpad, Hseek. cbn.
    apply andb_prop in Hpad as [Hend _]. apply Z.eqb_eq in Hend.
    rewrite Hend.
    repeat split; try reflexivity; lia.
  - intros [= <- <- <-]. exists f1. rewrite Hpad. cbn.
    repeat split; try reflexivity; lia.
Qed.

End ReadProperties.

(** ** The cursor *)

(** [Seek] either leaves the cursor alone or puts it inside the chunk. *)
Lemma Seek_cursor {S : Type} {RS : ReadSeeker S} (c : Chunk S)
      (off whence : Z) :
  is_uint32 (size c) ->
  size (snd (Seek c off whence)) = size c /\
  base (snd (Seek c off whence)) = base c /\
  (offset (snd (Seek c off whence)) = offset c \/
   0 <= offset (snd (Seek c off whence)) <= size c).
Proof.
  intros Hs. unfold is_uint32 in Hs. unfold Seek.
  set (t := seek_target c off whence).
  destruct (Z.ltb_spec t 0) as [Hneg | Hpos]; cbn [orb].
  - cbn. auto.
  - destruct (Z.gtb_spec t (size c)) as [Hbig | Hin].
    + cbn. auto.
    + destruct (rs_Seek (file c) (int64 (base c + t)) 0) as [[pos err] f1].
      destruct err as [err |]; cbn; [ auto | ].
      rewrite uint32_small by (unfold is_uint32; lia).
      repeat split; right; lia.
Qed.

Section CursorInvariant.

Context {S : Type} {RS : ReadSeeker S} {LS : LawfulSource S}.

Lemma reach_invariant (c0 c : Chunk S) :
  typed c0 -> offset c0 = 0 -> reach c0 c ->
  typed c /\ size c = size c0 /\ cursor_ok c.
Proof.
  intros Hc0 Hoff0 Hreach.
  induction Hreach as [| c off whence _ IH | c _ IH | c n _ IH Hn Hle].
  - split; [ exact Hc0 | split; [ reflexivity | ] ].
    destruct Hc0 as (Hs & _ & _). unfold is_uint32 in Hs. left. lia.
  - destruct IH as ((Hs & Hb & Ho) & Hsz & Hok).
    destruct (Seek_cursor c off whence Hs) as (Hs' & Hb' & Ho').
    unfold typed, cursor_ok in *. rewrite Hs', Hb'. unfold is_uint32 in *.
    destruct Ho' as [-> | Hin].
    + split; [ | split ]; [ lia | exact Hsz | exact Hok ].
    + split; [ | split ]; [ lia | exact Hsz | left; lia ].
  - destruct IH as ((Hs & Hb & Ho) & Hsz & Hok).
    rewrite Skip_fields. unfold typed, cursor_ok. cbn.
    split; [ | split ]; [ auto | exact Hsz | left; lia ].
  - destruct IH as (Hc & Hsz & Hok). pose proof Hc as (Hs & Hb & Ho).
    destruct (Z.eq_dec (offset c) (size c)) as [Heq | Hne].
    + rewrite (Read_exhausted c n Heq). cbn. auto.
    + destruct (Read c n) as [[d e] c'] eqn:Hread. cbn [snd].
      destruct (Read_before_end c c' n d e Hc ltac:(lia) Hn Hread)
        as (f1 & _ & Hlen & _ & Hs' & Hb' & Ho' & _).
      pose proof (len_nonneg d) as Hd.
      pose proof (uint32_range (size c + 1)) as Hu.
      unfold typed, cursor_ok, is_uint32 in *. rewrite Hs', Hb', Ho'.
      destruct ((offset c + len d =? size c) && Z.odd (size c)
                && is_nil (snd (fst (rs_Seek f1 1 1)))) eqn:Hpad.
      * apply andb_prop in Hpad as [Hpad _].
        apply andb_prop in Hpad as [_ Hodd].
        split; [ | split ]; [ lia | exact Hsz | ].
        destruct (Z_lt_ge_dec (size c + 1) (2 ^ 32)) as [Hfit | Hwrap].
        -- right. split; [ exact Hodd | ].
           apply uint32_small. unfold is_uint32. lia.
        -- left. replace (size c + 1) with (2 ^ 32) by lia.
           unfold uint32. rewrite Z.mod_same by lia. lia.
      * split; [ | split ]; [ lia | exact Hsz | left; lia ].
Qed.

End CursorInvariant.

(** The step of lines 90-94, for every source: when the count brings
    the cursor to an odd size and the source accepts the seek past the
    pad byte, the cursor is incremented once more. *)
Lemma Read_pad_increments_cursor {S : Type} {RS : ReadSeeker S}
      (c : Chunk S) (n : Z) :
  offset c <> size c ->
  uint32 (offset c + uint32 (len (fst (fst (rs_Read (file c) (read_len c n))))))
  = size c ->
  Z.odd (size c) = true ->
  is_nil (snd (fst (rs_Seek (snd (rs_Read (file c) (read_len c n))) 1 1)))
  = true ->
  offset (snd (Read c n)) = uint32 (size c + 1).
Proof.
  intros Hne Hend Hodd Hok. unfold Read.
  destruct (Z.eqb_spec (offset c) (size c)) as [Heq | _]; [ contradiction | ].
  destruct (rs_Read (file c) (read_len c n)) as [[d e] f1].
  cbn [fst snd] in Hend, Hok.
  rewrite Hend, Z.eqb_refl, land_1_odd, Hodd. cbn [andb].
  destruct (rs_Seek f1 1 1) as [[pos e1] f2]. cbn [fst snd] in Hok.
  rewrite Hok. reflexivity.
Qed.

(** C1 (the code at the failing input): the chunk built from [oddFile]
    has size 1.  One [Read] of one byte returns the payload and leaves
    the cursor at 2, past the size.  [Skip] on the same chunk brings the
    source to the same place and leaves the cursor at 1, and in the
    state the read left, [Seek(0, 1)] is refused as out of range. *)
Theorem C1_cursor_past_size :
  New (bytes.NewReader oddFile) = (Some chunkOdd, None, file chunkOdd) /\
  size chunkOdd = 1 /\
  fst (Read chunkOdd 1) = ([b 255], None) /\
  offset (run chunkOdd [OpRead 1]) = 2 /\
  ~ (0 <= offset (run chunkOdd [OpRead 1]) <= size (run chunkOdd [OpRead 1])) /\
  offset (Skip chunkOdd) = 1 /\
  position (file (Skip chunkOdd)) = position (file (run chunkOdd [OpRead 1])) /\
  fst (Seek (run chunkOdd [OpRead 1]) 0 1) = (2, Some InvalidSeekOffset).
Proof.
  assert (Hoff : offset (run chunkOdd [OpRead 1]) = 2) by reflexivity.
  assert (Hsz : size (run chunkOdd [OpRead 1]) = 1) by reflexivity.
  split; [ reflexivity | ]. split; [ reflexivity | ].
  split; [ reflexivity | ]. split; [ exact Hoff | ].
  split; [ rewrite Hoff, Hsz; lia | ].
  repeat split.
Qed.

(** C5 (the code at the failing inputs): on the chunk of size 1 built
    from [oddFile], a [Read] of one byte returns a count of 1 and moves
    the cursor by 2; in the state it leaves, a [Read] with a buffer of 4
    hands the whole buffer to the source and returns four bytes from
    beyond the payload.  On the chunk of size 2 built from [testString],
    a [Read] with a buffer of [2^32 + 1] bytes, whose length line 81
    truncates to 1, hands the whole buffer to the source and returns the
    30 bytes the slice has left. *)
Theorem C5_reads_past_declared_size :
  New (bytes.NewReader oddFile) = (Some chunkOdd, None, file chunkOdd) /\
  len (fst (fst (Read chunkOdd 1))) = 1 /\
  offset (snd (Read chunkOdd 1)) - offset chunkOdd = 2 /\
  read_len (snd (Read chunkOdd 1)) 4 = 4 /\
  Z.min 4 (size (snd (Read chunkOdd 1)) - offset (snd (Read chunkOdd 1))) = -1 /\
  fst (Read (snd (Read chunkOdd 1)) 4) = (["I"; "N"; "2"; " "]%byte, None) /\
  New (bytes.NewReader testString) = (Some chunkTest, None, file chunkTest) /\
  size chunkTest = 2 /\
  read_len chunkTest (2 ^ 32 + 1) = 2 ^ 32 + 1 /\
  len (fst (fst (Read chunkTest (2 ^ 32 + 1)))) = 30 /\
  offset (snd (Read chunkTest (2 ^ 32 + 1))) = 30.
Proof.
  assert (Hbig : read_len chunkTest (2 ^ 32 + 1) = 2 ^ 32 + 1)
    by (vm_compute; reflexivity).
  assert (Hlen : len (fst (fst (Read chunkTest (2 ^ 32 + 1)))) = 30)
    by (vm_compute; reflexivity).
  assert (Hoff : offset (snd (Read chunkTest (2 ^ 32 + 1))) = 30)
    by (vm_compute; reflexivity).
  repeat split; try assumption.
Qed.

(** C2 (the code at the failing input): the chunk built from [oddFile]
    declares one payload byte.  The first [Read] returns that byte; the
    next [Read], with a buffer of 4, returns four bytes and no error:
    the tag of the chunk that follows. *)
Theorem C2_read_after_odd_drain :
  New (bytes.NewReader oddFile) = (Some chunkOdd, None, file chunkOdd) /\
  size chunkOdd = 1 /\
  fst (Read chunkOdd 1) = ([b 255], None) /\
  fst (Read (snd (Read chunkOdd 1)) 4) = (["I"; "N"; "2"; " "]%byte, None).
Proof. repeat split. Qed.

(** The general shape of that second read: with the cursor one past the
    size, the remaining length of line 82 wraps to [2^32 - 1], so the
    whole buffer is handed to the source. *)
Lemma read_len_past_end {S : Type} {RS : ReadSeeker S} (c : Chunk S) (n : Z) :
  offset c = size c + 1 -> 0 <= n < 2 ^ 32 ->
  read_len c n = n /\
  Read c n
  = (let '(d, err, f1) := rs_Read (file c) n in
     let off1 := uint32 (offset c + uint32 (len d)) in
     if (off1 =? size c) && (Z.land (size c) 1 =? 1)
     then
       let '(_, err1, f2) := rs_Seek f1 1 1 in
       (d, err, mkChunk f2 (id c) (size c) (base c)
                        (if is_nil err1 then uint32 (off1 + 1) else off1))
     else (d, err, mkChunk f1 (id c) (size c) (base c) off1)).
Proof.
  intros Hoff Hn.
  assert (Hlen : read_len c n = n).
  { unfold read_len. cbv zeta.
    replace (size c - offset c) with (-1) by lia.
    rewrite (uint32_small n) by exact Hn.
    change (uint32 (-1)) with (2 ^ 32 - 1).
    destruct (Z.gtb_spec n (2 ^ 32 - 1)); [ lia | reflexivity ]. }
  split; [ exact Hlen | ].
  unfold Read. rewrite Hlen.
  destruct (Z.eqb_spec (offset c) (size c)) as [Heq | _]; [ lia | reflexivity ].
Qed.

(** Where the end-of-stream answer does hold: after a read that leaves
    the cursor on the size, which is every draining read of an
    even-sized chunk. *)
Lemma Read_after_even_drain {S : Type} {RS : ReadSeeker S}
      {LS : LawfulSource S} (c c' : Chunk S) (n : Z) (d : list byte)
      (e : option error) :
  typed c -> offset c < size c -> 0 <= n < 2 ^ 32 ->
  Read c n = (d, e, c') ->
  offset c + len d = size c -> Z.odd (size c) = false ->
  forall m, Read c' m = ([], Some EOF, c').
Proof.
  intros Hc Hlt Hn Hread Hend Heven m.
  destruct (Read_before_end c c' n d e Hc Hlt Hn Hread)
    as (f1 & _ & _ & _ & Hs' & _ & Ho' & _).
  apply Read_exhausted. rewrite Ho', Hs', Heven, andb_false_r. cbn. exact Hend.
Qed.

(** [TestBasicRead]: two bytes, then end-of-stream. *)
Example Read_chunkTest_then_EOF :
  fst (Read chunkTest 10) = ([b 42; b 24], None) /\
  fst (Read (snd (Read chunkTest 10)) 10) = ([], Some EOF).
Proof. repeat split. Qed.

(** [TestReadPadding]: draining an odd-sized chunk by [Read] leaves the
    source on the next header. *)
Example Read_odd_chunk_source_position :
  position (file (snd (Read chunkOdd 1))) = 10.
Proof. reflexivity. Qed.

(** ** Chunks inside chunks *)

Lemma chunkIN1_constructed :
  New chunkFoo = (Some chunkIN1, None, file chunkIN1).
Proof. reflexivity. Qed.

(** [TestReadPadding]: once [IN1 ] is drained by [Read], the parent
    stands on the header of [IN2 ]. *)
Example nested_Read_then_New :
  match New (file (snd (Read chunkIN1 1))) with
  | (Some c, err, _) => (id c, size c, base c, err)
  | (None, err, _) => ([], 0, 0, err)
  end = (["I"; "N"; "2"; " "]%byte, 2, 18, None).
Proof. reflexivity. Qed.

(** [TestSubChunks]: the same after [Skip], then a relative seek and a
    read inside [IN2 ]. *)
Example nested_Skip_then_New :
  match New (file (Skip chunkIN1)) with
  | (Some c, _, _) =>
      let '(pos, err, c1) := Seek c 1 1 in
      (id c, pos, err, fst (Read c1 1))
  | (None, err, _) => ([], 0, err, ([], None))
  end = (["I"; "N"; "2"; " "]%byte, 1, None, ([b 129], None)).
Proof. reflexivity. Qed.

(** * Further properties of the methods *)

(** ** What no operation changes *)

Section Identity.

Context {S : Type} {RS : ReadSeeker S}.

Lemma Seek_identity (c : Chunk S) (off whence : Z) :
  id (snd (Seek c off whence)) = id c /\
  size (snd (Seek c off whence)) = size c /\
  base (snd (Seek c off whence)) = base c.
Proof.
  unfold Seek.
  destruct ((seek_target c off whence <? 0)
            || (seek_target c off whence >? size c)); [ cbn; auto | ].
  destruct (rs_Seek (file c) (int64 (base c + seek_target c off whence)) 0)
    as [[pos [e |]] f1]; cbn; auto.
Qed.

Lemma Read_identity (c : Chunk S) (n : Z) :
  id (snd (Read c n)) = id c /\
  size (snd (Read c n)) = size c /\
  base (snd (Read c n)) = base c.
Proof.
  unfold Read. destruct (offset c =? size c); [ cbn; auto | ].
  destruct (rs_Read (file c) (read_len c n)) as [[d e] f1].
  destruct ((uint32 (offset c + uint32 (len d)) =? size c)
            && (Z.land (size c) 1 =? 1)); [ | cbn; auto ].
  destruct (rs_Seek f1 1 1) as [[pos e1] f2]. cbn. auto.
Qed.

(** X1: Name, size and base are fixed at construction: no sequence of
    reads, seeks and skips changes what [Name] and [Size] return, nor
    the base. *)
Theorem run_keeps_identity (c : Chunk S) (ops : list op) :
  Name (run c ops) = Name c /\
  Size (run c ops) = Size c /\
  base (run c ops) = base c.
Proof.
  unfold Name, Size, run. revert c.
  induction ops as [| o ops IH]; intros c; [ cbn; auto | ].
  cbn [fold_left]. destruct (IH (step c o)) as (Hi & Hs & Hb).
  rewrite Hi, Hs, Hb.
  destruct o as [n | off whence |]; cbn [step].
  - apply Read_identity.
  - apply Seek_identity.
  - rewrite Skip_fields. cbn. auto.
Qed.

(** X2: [New] never returns a chunk together with an error; the chunk it
    returns holds the source as [New] left it, starts at cursor 0 and
    has a size and base of 32 bits. *)
Theorem New_chunk_without_error (f f' : S) (c : Chunk S) (e : option error) :
  New f = (Some c, e, f') ->
  e = None /\ file c = f' /\ offset c = 0 /\ typed c.
Proof.
  intros Hnew. destruct (New_typed f f' c e Hnew) as (Hc & Hoff).
  repeat split; try apply Hc; try exact Hoff.
  - revert Hnew. unfold New.
    destruct (rs_Read f 4) as [[tag err] f1].
    destruct (negb (len tag =? 4) || negb (is_nil err)); [ discriminate | ].
    destruct (rs_Read f1 4) as [[sizeBits err2] f2].
    destruct (negb (len sizeBits =? 4) || negb (is_nil err2));
      [ discriminate | ].
    destruct (rs_Seek f2 0 1) as [[pos err3] f3]. now intros [= _ <- _].
  - revert Hnew. unfold New.
    destruct (rs_Read f 4) as [[tag err] f1].
    destruct (negb (len tag =? 4) || negb (is_nil err)); [ discriminate | ].
    destruct (rs_Read f1 4) as [[sizeBits err2] f2].
    destruct (negb (len sizeBits =? 4) || negb (is_nil err2));
      [ discriminate | ].
    destruct (rs_Seek f2 0 1) as [[pos err3] f3]. now intros [= <- _ <-].
Qed.

(** X4: What [Seek] returns: with an error the cursor is where it was; with
    none, the value returned is the new cursor and lies in [[0, size]]. *)
Theorem Seek_result (c c' : Chunk S) (off whence ret : Z)
        (err : option error) :
  is_uint32 (size c) ->
  Seek c off whence = (ret, err, c') ->
  (err <> None -> offset c' = offset c) /\
  (err = None -> ret = offset c' /\ 0 <= ret <= size c).
Proof.
  intros Hs. unfold is_uint32 in Hs. unfold Seek.
  set (t := seek_target c off whence).
  destruct (Z.ltb_spec t 0) as [Hneg | Hpos]; cbn [orb].
  - intros [= <- <- <-]. split; [ reflexivity | discriminate ].
  - destruct (Z.gtb_spec t (size c)) as [Hbig | Hin].
    + intros [= <- <- <-]. split; [ reflexivity | discriminate ].
    + destruct (rs_Seek (file c) (int64 (base c + t)) 0) as [[pos [e |]] f1].
      * intros [= <- <- <-]. split; [ reflexivity | discriminate ].
      * intros [= <- <- <-]. cbn.
        rewrite uint32_small by (unfold is_uint32; lia).
        split; [ congruence | intros _; split; [ reflexivity | lia ] ].
Qed.

(** [Read] hands on what the source's read returned, bytes and error
    alike; the result of the pad-byte seek never shows. *)
Lemma Read_passes_source_result (c : Chunk S) (n : Z) :
  offset c <> size c ->
  fst (Read c n) = fst (rs_Read (file c) (read_len c n)).
Proof.
  intros Hne. unfold Read.
  destruct (Z.eqb_spec (offset c) (size c)) as [Heq | _]; [ contradiction | ].
  destruct (rs_Read (file c) (read_len c n)) as [[d e] f1].
  destruct ((uint32 (offset c + uint32 (len d)) =? size c)
            && (Z.land (size c) 1 =? 1)); [ | reflexivity ].
  destruct (rs_Seek f1 1 1) as [[pos e1] f2]. reflexivity.
Qed.

End Identity.

(** ** Exhaustion *)

(** X5: for every source and every buffer length: when a read begun
    with the cursor off the size returns a count that brings the cursor
    (in [uint32]) to the size, and no pad byte is taken, because the
    size is even or because the source refuses [Seek(1, 1)], the cursor
    stays on the size and every later read returns no bytes and
    [io.EOF] and leaves the chunk as it is. *)
Theorem Read_drained_then_EOF {S : Type} {RS : ReadSeeker S}
        (c : Chunk S) (n : Z) :
  offset c <> size c ->
  uint32 (offset c + uint32 (len (fst (fst (rs_Read (file c) (read_len c n))))))
  = size c ->
  Z.odd (size c) = false \/
  is_nil (snd (fst (rs_Seek (snd (rs_Read (file c) (read_len c n))) 1 1)))
  = false ->
  offset (snd (Read c n)) = size c /\
  forall m, Read (snd (Read c n)) m = ([], Some EOF, snd (Read c n)).
Proof.
  intros Hne Hend Hnopad.
  assert (Hoff : offset (snd (Read c n)) = size c
                 /\ size (snd (Read c n)) = size c).
  { unfold Read.
    destruct (Z.eqb_spec (offset c) (size c)) as [Heq | _];
      [ contradiction | ].
    destruct (rs_Read (file c) (read_len c n)) as [[d e] f1].
    cbn [fst snd] in Hend, Hnopad.
    rewrite Hend, Z.eqb_refl, land_1_odd. cbn [andb].
    destruct (Z.odd (size c)) eqn:Hodd.
    - destruct Hnopad as [Heven | Hfail]; [ discriminate | ].
      destruct (rs_Seek f1 1 1) as [[pos e1] f2]. cbn [fst snd] in Hfail.
      rewrite Hfail. cbn. split; reflexivity.
    - cbn. split; reflexivity. }
  destruct Hoff as (Hoff & Hsz). split; [ exact Hoff | ].
  intros m. apply Read_exhausted. rewrite Hoff, Hsz. reflexivity.
Qed.

(** ** Chunks over a [bytes.Reader] *)

Lemma len_slice (r : bytes.Reader) (from k : Z) :
  0 <= k -> len (slice r from k) = k.
Proof.
  intros Hk. unfold slice. rewrite len_map_seq. apply Z2Nat.id, Hk.
Qed.

Lemma bytes_Seek_start (r : bytes.Reader) (p : Z) :
  0 <= p -> bytes.Seek r p 0 = (p, None, moved r p).
Proof.
  intros Hp. unfold bytes.Seek.
  destruct (Z.ltb_spec p 0) as [Hneg | _]; [ lia | reflexivity ].
Qed.

Lemma bytes_Seek_one (r : bytes.Reader) :
  0 <= bytes.i r + 1 ->
  bytes.Seek r 1 1 = (bytes.i r + 1, None, moved r (bytes.i r + 1)).
Proof.
  intros Hp. unfold bytes.Seek.
  destruct (Z.ltb_spec (bytes.i r + 1) 0) as [Hneg | _]; [ lia | reflexivity ].
Qed.

Lemma bytes_Read_slice (r : bytes.Reader) (n : Z) :
  0 <= n -> bytes.i r < bytes.s_len r ->
  bytes.Read r n
  = (slice r (bytes.i r) (Z.min n (bytes.s_len r - bytes.i r)), None,
     moved r (bytes.i r + Z.min n (bytes.s_len r - bytes.i r))).
Proof.
  intros Hn Hav. unfold bytes.Read.
  destruct (Z.leb_spec (bytes.s_len r) (bytes.i r)) as [Hle | _]; [ lia | ].
  rewrite Z2Nat.id by lia. reflexivity.
Qed.

Lemma bytes_Read_at_end (r : bytes.Reader) (n : Z) :
  bytes.s_len r <= bytes.i r -> bytes.Read r n = ([], Some EOF, r).
Proof.
  intros Hle. unfold bytes.Read.
  destruct (Z.leb_spec (bytes.s_len r) (bytes.i r)); [ reflexivity | lia ].
Qed.

(** One [Read] before the end of a chunk whose source has bytes left. *)
Lemma Read_bytes (c : Chunk bytes.Reader) (n : Z) :
  typed c -> offset c < size c -> 0 <= n < 2 ^ 32 ->
  0 <= bytes.i (file c) < bytes.s_len (file c) ->
  Read c n
  = (let r := file c in
     let k := Z.min (Z.min n (size c - offset c))
                    (bytes.s_len r - bytes.i r) in
     let pad := pad_step c (offset c + k) in
     (slice r (bytes.i r) k, None,
      mkChunk (moved r (bytes.i r + k + pad)) (id c) (size c) (base c)
              (uint32 (offset c + k + pad)))).
Proof.
  intros Hc Hlt Hn Hav. pose proof Hc as (Hs & _ & Ho).
  unfold is_uint32 in *. cbv zeta.
  set (r := file c) in *.
  set (k := Z.min (Z.min n (size c - offset c)) (bytes.s_len r - bytes.i r)).
  assert (Hk : 0 <= k <= size c - offset c) by (unfold k; lia).
  unfold Read.
  destruct (Z.eqb_spec (offset c) (size c)) as [Heq | _]; [ lia | ].
  rewrite (read_len_min c n Hc Hlt Hn).
  change (rs_Read (file c) (Z.min n (size c - offset c)))
    with (bytes.Read r (Z.min n (size c - offset c))).
  rewrite bytes_Read_slice by lia. fold k.
  rewrite (len_slice r (bytes.i r) k) by lia.
  rewrite (uint32_small k) by (unfold is_uint32; lia).
  rewrite (uint32_small (offset c + k)) by (unfold is_uint32; lia).
  rewrite land_1_odd. unfold pad_step.
  destruct ((offset c + k =? size c) && Z.odd (size c)).
  - change (rs_Seek (moved r (bytes.i r + k)) 1 1)
      with (bytes.Seek (moved r (bytes.i r + k)) 1 1).
    rewrite bytes_Seek_one by (cbn; lia). cbn [is_nil bytes.i moved].
    reflexivity.
  - rewrite !Z.add_0_r.
    rewrite (uint32_small (offset c + k)) by (unfold is_uint32; lia).
    reflexivity.
Qed.

(** An accepted [Seek] on a [bytes.Reader] cannot fail: the source moves
    to [base + target]. *)
Lemma Seek_bytes (c : Chunk bytes.Reader) (off whence : Z) :
  typed c ->
  0 <= seek_target c off whence <= size c ->
  Seek c off whence
  = (seek_target c off whence, None,
     mkChunk (moved (file c) (base c + seek_target c off whence))
             (id c) (size c) (base c) (seek_target c off whence)).
Proof.
  intros (Hs & Hb & _) Ht. unfold is_uint32 in *. unfold Seek.
  set (t := seek_target c off whence) in *.
  destruct (Z.ltb_spec t 0) as [Hneg | _]; [ lia | ].
  destruct (Z.gtb_spec t (size c)) as [Hbig | _]; [ lia | ]. cbn [orb].
  rewrite int64_small by (unfold is_int64; lia).
  change (rs_Seek (file c) (base c + t) 0)
    with (bytes.Seek (file c) (base c + t) 0).
  rewrite bytes_Seek_start by lia.
  rewrite uint32_small by (unfold is_uint32; lia). reflexivity.
Qed.

(** A rejected [Seek] changes nothing. *)
Lemma Seek_rejected {S : Type} {RS : ReadSeeker S} (c : Chunk S)
      (off whence : Z) :
  seek_target c off whence < 0 \/ size c < seek_target c off whence ->
  Seek c off whence = (offset c, Some InvalidSeekOffset, c).
Proof.
  intros Ht. unfold Seek. set (t := seek_target c off whence) in *.
  destruct (Z.ltb_spec t 0) as [Hneg | Hpos]; [ reflexivity | ].
  destruct (Z.gtb_spec t (size c)) as [Hbig | Hin]; [ reflexivity | lia ].
Qed.

(** What a chunk's constructor leaves behind on a lawful source. *)
Lemma New_base_position {S : Type} {RS : ReadSeeker S} {LS : LawfulSource S}
      (f f' : S) (c : Chunk S) (e : option error) :
  0 <= position f ->
  New f = (Some c, e, f') ->
  file c = f' /\ position f' = position f + 8 /\
  base c = uint32 (position f') /\ offset c = 0.
Proof.
  intros Hpos. unfold New.
  destruct (rs_Read f 4) as [[tag err] f1] eqn:Hr1.
  destruct (Z.eqb_spec (len tag) 4) as [Hl1 | _]; cbn [negb orb];
    [ | discriminate ].
  destruct (negb (is_nil err)); [ discriminate | ].
  destruct (rs_Read f1 4) as [[sizeBits err2] f2] eqn:Hr2.
  destruct (Z.eqb_spec (len sizeBits) 4) as [Hl2 | _]; cbn [negb orb];
    [ | discriminate ].
  destruct (negb (is_nil err2)); [ discriminate | ].
  pose proof (Read_position _ _ _ _ _ Hr1) as Hp1.
  pose proof (Read_position _ _ _ _ _ Hr2) as Hp2.
  rewrite Seek_current by lia.
  intros [= <- _ <-]. cbn. repeat split. lia.
Qed.

Lemma Skip_bytes (c : Chunk bytes.Reader) :
  Skip c = mkChunk (moved (file c) (skip_pos c))
                   (id c) (size c) (base c) (size c).
Proof.
  rewrite Skip_fields.
  change (rs_Seek (file c) (skip_pos c) 0)
    with (bytes.Seek (file c) (skip_pos c) 0).
  rewrite bytes_Seek_start; [ reflexivity | ].
  unfold skip_pos. cbv zeta.
  destruct (Z.land (uint32 (base c + size c)) 1 =? 1); apply uint32_range.
Qed.

Lemma Read_keeps_in_step (c : Chunk bytes.Reader) (n : Z) :
  typed c -> size c < 2 ^ 32 - 1 -> 0 <= n < 2 ^ 32 ->
  offset c <= size c -> in_step c ->
  in_step (snd (Read c n)).
Proof.
  intros Hc Hfit Hn Hle Hstep. pose proof Hc as (Hs & Hb & Ho).
  unfold is_uint32, in_step in *.
  destruct (Z.eq_dec (offset c) (size c)) as [Heq | Hne].
  { rewrite (Read_exhausted c n Heq). exact Hstep. }
  destruct (Z_lt_ge_dec (bytes.i (file c)) (bytes.s_len (file c)))
    as [Hav | Hend].
  - rewrite (Read_bytes c n Hc ltac:(lia) Hn ltac:(lia)). cbn.
    set (k := Z.min (Z.min n (size c - offset c))
                    (bytes.s_len (file c) - bytes.i (file c))).
    assert (Hk : 0 <= k <= size c - offset c) by (unfold k; lia).
    assert (Hpad : 0 <= pad_step c (offset c + k) <= 1)
      by (unfold pad_step;
          destruct ((offset c + k =? size c) && Z.odd (size c)); lia).
    rewrite uint32_small by (unfold is_uint32; lia). lia.
  - unfold Read.
    destruct (Z.eqb_spec (offset c) (size c)) as [Heq | _]; [ lia | ].
    change (rs_Read (file c) (read_len c n))
      with (bytes.Read (file c) (read_len c n)).
    rewrite bytes_Read_at_end by lia.
    change (len (@nil byte)) with 0.
    rewrite (uint32_small 0) by (unfold is_uint32; lia).
    rewrite Z.add_0_r, (uint32_small (offset c)) by (unfold is_uint32; lia).
    destruct (Z.eqb_spec (offset c) (size c)) as [Heq | _]; [ lia | ].
    cbn. exact Hstep.
Qed.

(** X6: for a chunk built by [New] on a [bytes.Reader] whose index
    is not negative and lies more than 8 below [2^32], and whose size is
    below [2^32 - 1]: after any sequence of seeks, skips and reads
    (reads with buffers shorter than [2^32], begun with the cursor at
    or before the size) the reader stands at [base + cursor], or, after
    a [Skip], at the position [Skip] chose with the cursor on the
    size. *)
Theorem source_follows_cursor (r r' : bytes.Reader)
        (c0 c : Chunk bytes.Reader) :
  0 <= bytes.i r -> bytes.i r + 8 < 2 ^ 32 ->
  New r = (Some c0, None, r') -> size c0 < 2 ^ 32 - 1 ->
  reach c0 c ->
  bytes.i (file c) = base c + offset c \/
  (offset c = size c /\ bytes.i (file c) = skip_pos c).
Proof.
  intros Hi Hsmall Hnew Hfit Hreach.
  destruct (New_typed r r' c0 None Hnew) as (Hc0 & Hoff0).
  destruct (New_base_position (LS := bytes_Reader_Lawful) r r' c0 None Hi Hnew)
    as (Hfile & Hp & Hbase & _).
  cbn [position bytes_Reader_Lawful] in Hp, Hbase.
  assert (Hstep0 : in_step c0).
  { unfold in_step. rewrite Hfile, Hbase, Hoff0, Hp.
    rewrite uint32_small by (unfold is_uint32; lia). lia. }
  change (in_step c \/ skipped c).
  induction Hreach as [| c off whence Hreach IH | c Hreach IH
                       | c n Hreach IH Hn Hle].
  - left. exact Hstep0.
  - destruct (reach_invariant (LS := bytes_Reader_Lawful) c0 c Hc0 Hoff0 Hreach)
      as (Hc & _ & _).
    pose proof Hc as (Hs & _ & _). unfold is_uint32 in Hs.
    destruct (Z_lt_ge_dec (seek_target c off whence) 0) as [Hneg | Hpos].
    { rewrite Seek_rejected by lia. exact IH. }
    destruct (Z_lt_ge_dec (size c) (seek_target c off whence)) as [Hbig | Hin].
    { rewrite Seek_rejected by lia. exact IH. }
    rewrite (Seek_bytes c off whence Hc) by lia. left. reflexivity.
  - right. rewrite Skip_bytes. split; reflexivity.
  - destruct (reach_invariant (LS := bytes_Reader_Lawful) c0 c Hc0 Hoff0 Hreach)
      as (Hc & Hsz & _).
    destruct IH as [Hstep | (Hend & Hpos)].
    + left. apply Read_keeps_in_step; try assumption. lia.
    + right. rewrite (Read_exhausted c n Hend). split; assumption.
Qed.

(** ** The payload *)

Lemma map_seq_from {A : Type} (f : nat -> A) (a k : nat) :
  map f (seq a k) = map (fun j => f (a + j)%nat) (seq 0 k).
Proof.
  revert a. induction k as [| k IH]; intros a; [ reflexivity | ].
  cbn [seq map]. rewrite Nat.add_0_r. f_equal.
  rewrite IH, <- seq_shift, map_map.
  apply map_ext. intros j. f_equal. lia.
Qed.

Lemma slice_app (r : bytes.Reader) (from k1 k2 : Z) :
  0 <= k1 -> 0 <= k2 ->
  slice r from k1 ++ slice r (from + k1) k2 = slice r from (k1 + k2).
Proof.
  intros H1 H2. unfold slice.
  rewrite Z2Nat.inj_add by lia. rewrite seq_app, map_app. f_equal.
  cbn [Nat.add]. rewrite (map_seq_from _ (Z.to_nat k1)).
  apply map_ext. intros j. f_equal. lia.
Qed.

Lemma slice_moved (r : bytes.Reader) (pos from k : Z) :
  slice (moved r pos) from k = slice r from k.
Proof. reflexivity. Qed.

(** X7: for a chunk with fields of 32 bits over a [bytes.Reader] that
    stands at [base + cursor], with the cursor before the size and a
    buffer shorter than [2^32]: if the slice has bytes left, [Read]
    returns, with no error, the bytes of the slice from [base + cursor]
    on, as many as the least of the buffer length, what the chunk has
    left and what the slice has left; if the slice has none left (the
    file is shorter than the declared size), it returns no bytes and
    [io.EOF]. *)
Theorem Read_returns_payload (c : Chunk bytes.Reader) (n : Z) :
  typed c -> in_step c -> offset c < size c -> 0 <= n < 2 ^ 32 ->
  fst (Read c n)
  = if base c + offset c <? bytes.s_len (file c)
    then (slice (file c) (base c + offset c)
                (Z.min (Z.min n (size c - offset c))
                       (bytes.s_len (file c) - (base c + offset c))),
          None)
    else ([], Some EOF).
Proof.
  intros Hc Hstep Hlt Hn. pose proof Hc as (_ & Hb & Ho).
  unfold is_uint32, in_step in *.
  destruct (Z.ltb_spec (base c + offset c) (bytes.s_len (file c)))
    as [Hav | Hend].
  - rewrite (Read_bytes c n Hc Hlt Hn) by lia. cbn. rewrite Hstep.
    reflexivity.
  - rewrite (Read_passes_source_result c n) by lia.
    change (rs_Read (file c) (read_len c n))
      with (bytes.Read (file c) (read_len c n)).
    rewrite bytes_Read_at_end by lia. reflexivity.
Qed.

(** X8: Two reads that stay inside the chunk and the slice are one read of
    the two lengths together: the bytes of the first followed by the
    bytes of the second, and the same chunk afterwards. *)
Theorem Read_split (c : Chunk bytes.Reader) (n1 n2 : Z) :
  typed c -> 0 <= bytes.i (file c) -> 0 < n1 -> 0 < n2 ->
  offset c + n1 + n2 <= size c ->
  bytes.i (file c) + n1 + n2 <= bytes.s_len (file c) ->
  fst (fst (Read c n1)) ++ fst (fst (Read (snd (Read c n1)) n2))
  = fst (fst (Read c (n1 + n2))) /\
  snd (Read (snd (Read c n1)) n2) = snd (Read c (n1 + n2)).
Proof.
  intros Hc Hi H1 H2 Hin Hav. pose proof Hc as (Hs & Hb & Ho).
  unfold is_uint32 in *.
  rewrite (Read_bytes c n1 Hc) by lia.
  rewrite (Read_bytes c (n1 + n2) Hc) by lia. cbv zeta.
  rewrite !(Z.min_l n1), !(Z.min_l (n1 + n2)) by lia.
  assert (Hpad1 : pad_step c (offset c + n1) = 0).
  { unfold pad_step.
    destruct (Z.eqb_spec (offset c + n1) (size c)); [ lia | reflexivity ]. }
  rewrite Hpad1, !Z.add_0_r.
  rewrite (uint32_small (offset c + n1)) by (unfold is_uint32; lia).
  cbn [fst snd].
  set (c1 := mkChunk (moved (file c) (bytes.i (file c) + n1))
                     (id c) (size c) (base c) (offset c + n1)).
  assert (Hc1 : typed c1) by (unfold typed, is_uint32, c1; cbn; lia).
  rewrite (Read_bytes c1 n2 Hc1) by (unfold c1; cbn; lia).
  unfold c1. cbn [file id size base offset bytes.i bytes.s_len moved fst snd].
  cbv zeta.
  rewrite !(Z.min_l n2) by lia.
  replace (pad_step _ (offset c + n1 + n2))
    with (pad_step c (offset c + n1 + n2)) by reflexivity.
  rewrite slice_moved, slice_app by lia.
  rewrite !Z.add_assoc. split; reflexivity.
Qed.

(** ** Reaching the next chunk *)

(** X9: for a chunk with fields of 32 bits at an even base, with
    [base + size + 1 < 2^32], over a [bytes.Reader] that stands at
    [base + cursor] and holds the whole payload: a [Read] begun before
    the size, with a buffer shorter than [2^32] that takes all the
    payload left, leaves the source exactly where [Skip] would. *)
Theorem Read_to_end_matches_Skip (c : Chunk bytes.Reader) (n : Z) :
  typed c -> in_step c -> Z.odd (base c) = false ->
  offset c < size c -> size c - offset c <= n < 2 ^ 32 ->
  base c + size c + 1 < 2 ^ 32 ->
  base c + size c <= bytes.s_len (file c) ->
  file (snd (Read c n)) = file (Skip c).
Proof.
  intros Hc Hstep Heven Hlt Hn Hfit Hav. pose proof Hc as (Hs & Hb & Ho).
  unfold is_uint32, in_step in *.
  rewrite (Read_bytes c n Hc Hlt) by lia.
  rewrite Skip_bytes, (skip_pos_round_up c Hc Hfit). cbn [snd file].
  replace (Z.min (Z.min n (size c - offset c))
                 (bytes.s_len (file c) - bytes.i (file c)))
    with (size c - offset c) by lia.
  unfold pad_step, round_up_even.
  replace (offset c + (size c - offset c)) with (size c) by lia.
  rewrite Z.eqb_refl, odd_sum, Heven. cbn [andb xorb].
  f_equal. destruct (Z.odd (size c)); lia.
Qed.

Lemma bytes_Read_same_slice (r : bytes.Reader) (n : Z) :
  bytes.s_len (snd (bytes.Read r n)) = bytes.s_len r /\
  bytes.s_at (snd (bytes.Read r n)) = bytes.s_at r.
Proof.
  unfold bytes.Read. destruct (bytes.s_len r <=? bytes.i r); cbn; auto.
Qed.

Lemma bytes_Seek_same_slice (r : bytes.Reader) (off whence : Z) :
  bytes.s_len (snd (bytes.Seek r off whence)) = bytes.s_len r /\
  bytes.s_at (snd (bytes.Seek r off whence)) = bytes.s_at r.
Proof.
  unfold bytes.Seek.
  destruct whence as [| [p | [p | p |] |] | p]; cbn; auto;
    match goal with |- context [?x <? 0] => destruct (x <? 0) end; cbn; auto.
Qed.

Lemma step_same_slice (c : Chunk bytes.Reader) (o : op) :
  bytes.s_len (file (step c o)) = bytes.s_len (file c) /\
  bytes.s_at (file (step c o)) = bytes.s_at (file c).
Proof.
  destruct o as [n | off whence |]; cbn [step].
  - unfold Read. destruct (offset c =? size c); [ cbn; auto | ].
    change (rs_Read (file c) (read_len c n))
      with (bytes.Read (file c) (read_len c n)).
    pose proof (bytes_Read_same_slice (file c) (read_len c n)) as Hr.
    destruct (bytes.Read (file c) (read_len c n)) as [[d e] f1].
    cbn [snd] in Hr.
    destruct ((uint32 (offset c + uint32 (len d)) =? size c)
              && (Z.land (size c) 1 =? 1)); [ | exact Hr ].
    change (rs_Seek f1 1 1) with (bytes.Seek f1 1 1).
    pose proof (bytes_Seek_same_slice f1 1 1) as Hk.
    destruct (bytes.Seek f1 1 1) as [[pos e1] f2]. cbn [snd file] in *.
    destruct Hk as [-> ->]. exact Hr.
  - unfold Seek.
    destruct ((seek_target c off whence <? 0)
              || (seek_target c off whence >? size c)); [ cbn; auto | ].
    change (rs_Seek (file c) ?p 0) with (bytes.Seek (file c) p 0).
    pose proof (bytes_Seek_same_slice (file c)
                  (int64 (base c + seek_target c off whence)) 0) as Hk.
    destruct (bytes.Seek (file c) (int64 (base c + seek_target c off whence)) 0)
      as [[pos [e |]] f1]; exact Hk.
  - rewrite Skip_bytes. cbn. auto.
Qed.

(** X10: [Skip] does not depend on what was done with the chunk before: after
    any reads, seeks and skips it gives the chunk and the source position
    that skipping at once would have given. *)
Theorem Skip_from_anywhere (c : Chunk bytes.Reader) (ops : list op) :
  Skip (run c ops) = Skip c.
Proof.
  unfold run. revert c. induction ops as [| o ops IH]; intros c;
    [ reflexivity | ].
  cbn [fold_left]. rewrite IH.
  destruct (step_same_slice c o) as (Hlen & Hat).
  assert (Hid : id (step c o) = id c /\ size (step c o) = size c
                /\ base (step c o) = base c).
  { destruct o as [n | off whence |]; cbn [step].
    - apply Read_identity.
    - apply Seek_identity.
    - rewrite Skip_fields. cbn. auto. }
  destruct Hid as (Hi & Hs & Hb).
  rewrite !Skip_bytes. unfold skip_pos, moved.
  rewrite Hlen, Hat, Hi, Hs, Hb. reflexivity.
Qed.

(** Construction on a [bytes.Reader] with eight bytes left: the tag and
    the size come from the slice at the reader's index. *)
Lemma New_bytes_header (r : bytes.Reader) :
  0 <= bytes.i r -> bytes.i r + 8 <= bytes.s_len r ->
  New r
  = (Some (mkChunk (moved r (bytes.i r + 8)) (slice r (bytes.i r) 4)
                   (size_of_bits (slice r (bytes.i r + 4) 4))
                   (uint32 (bytes.i r + 8)) 0),
     None, moved r (bytes.i r + 8)).
Proof.
  intros Hi Hav.
  apply (New_header_read r (moved r (bytes.i r + 4)) (moved r (bytes.i r + 8))
           (moved r (bytes.i r + 8)) _ _ _ None).
  - change (rs_Read r 4) with (bytes.Read r 4).
    rewrite bytes_Read_slice by lia. rewrite Z.min_l by lia. reflexivity.
  - apply len_slice. lia.
  - change (rs_Read ?x 4) with (bytes.Read x 4).
    rewrite bytes_Read_slice by (cbn; lia). cbn [bytes.i bytes.s_len moved].
    rewrite Z.min_l by lia.
    replace (bytes.i r + 4 + 4) with (bytes.i r + 8) by lia. reflexivity.
  - apply len_slice. lia.
  - change (rs_Seek ?x 0 1) with (bytes.Seek x 0 1).
    rewrite bytes_Seek_current by (cbn; lia). reflexivity.
Qed.

(** X11: for a chunk with fields of 32 bits and
    [base + size + 9 < 2^32] over a [bytes.Reader] whose slice holds 8
    bytes from [base + size] rounded up to even: after [Skip],
    construction reads its header at that even offset; the next
    chunk's tag is the four bytes found there, its size is decoded from
    the next four, its base is eight further on, its cursor is 0 and
    the source stands at its base. *)
Theorem Skip_then_New (c : Chunk bytes.Reader) :
  typed c -> base c + size c + 9 < 2 ^ 32 ->
  round_up_even (base c + size c) + 8 <= bytes.s_len (file c) ->
  exists next,
    New (file (Skip c)) = (Some next, None, file next) /\
    Name next = slice (file c) (round_up_even (base c + size c)) 4 /\
    Size next
    = size_of_bits (slice (file c) (round_up_even (base c + size c) + 4) 4) /\
    base next = round_up_even (base c + size c) + 8 /\
    offset next = 0 /\
    bytes.i (file next) = base next.
Proof.
  intros Hc Hfit Hav. pose proof Hc as (Hs & Hb & _). unfold is_uint32 in *.
  rewrite Skip_bytes, (skip_pos_round_up c Hc) by lia. cbn [file].
  set (p := round_up_even (base c + size c)) in *.
  assert (Hp : base c + size c <= p <= base c + size c + 1)
    by (unfold p, round_up_even; destruct (Z.odd (base c + size c)); lia).
  rewrite (New_bytes_header (moved (file c) p)) by (cbn; lia).
  cbn [bytes.i bytes.s_len moved].
  exists (mkChunk (moved (moved (file c) p) (p + 8))
                  (slice (moved (file c) p) p 4)
                  (size_of_bits (slice (moved (file c) p) (p + 4) 4))
                  (uint32 (p + 8)) 0).
  split; [ reflexivity | ]. unfold Name, Size. cbn.
  rewrite uint32_small by (unfold is_uint32; lia).
  repeat split; reflexivity.
Qed.

(** X12: A seek from the start to [k], then a read of one byte, returns the
    payload byte at offset [k]. *)
Theorem Seek_then_Read_byte (c : Chunk bytes.Reader) (k : Z) :
  typed c -> 0 <= k < size c -> base c + k < bytes.s_len (file c) ->
  fst (Seek c k 0) = (k, None) /\
  fst (Read (snd (Seek c k 0)) 1)
  = ([bytes.s_at (file c) (base c + k)], None).
Proof.
  intros Hc Hk Hav. pose proof Hc as (Hs & Hb & Ho). unfold is_uint32 in *.
  rewrite (Seek_bytes c k 0 Hc) by (cbn; lia). cbn [fst snd seek_target].
  split; [ reflexivity | ].
  rewrite Read_bytes; cbn [file size base offset id bytes.i bytes.s_len moved];
    try lia; [ | unfold typed, is_uint32; cbn; lia ].
  cbv zeta. cbn [fst].
  replace (Z.min (Z.min 1 (size c - k)) (bytes.s_len (file c) - (base c + k)))
    with 1 by lia.
  unfold slice. change (Z.to_nat 1) with 1%nat. cbn [seq map].
  change (Z.of_nat 0) with 0. rewrite Z.add_0_r. reflexivity.
Qed.

(** ** Chunks inside chunks: bounds *)

(** X14: for a chunk whose source is another chunk, over any source,
    with fields of 32 bits, the child's cursor before its size, the
    parent's cursor at or before its size and a buffer shorter than
    [2^32]: a read on the child returns the bytes and the error that
    the parent's source returns when asked for the least of the buffer
    length, what the child has left and what the parent has left; with
    the parent exhausted it returns no bytes and [io.EOF]. *)
Theorem nested_Read_bounded {S : Type} {RS : ReadSeeker S}
        (c : Chunk (Chunk S)) (n : Z) :
  typed c -> typed (file c) ->
  offset c < size c -> offset (file c) <= size (file c) ->
  0 <= n < 2 ^ 32 ->
  (offset (file c) = size (file c) -> fst (Read c n) = ([], Some EOF)) /\
  (offset (file c) < size (file c) ->
   fst (Read c n)
   = fst (rs_Read (file (file c))
                  (Z.min (Z.min n (size c - offset c))
                         (size (file c) - offset (file c))))).
Proof.
  intros Hc Hp Hlt Hle Hn.
  pose proof Hc as (Hs & _ & Ho). unfold is_uint32 in Hs, Ho.
  rewrite (Read_passes_source_result c n) by lia.
  rewrite (read_len_min c n Hc Hlt Hn).
  change (rs_Read (file c) (Z.min n (size c - offset c)))
    with (Read (file c) (Z.min n (size c - offset c))).
  set (m := Z.min n (size c - offset c)).
  assert (Hm : 0 <= m < 2 ^ 32) by (unfold m; lia).
  split.
  - intros Heq. rewrite (Read_exhausted (file c) m Heq). reflexivity.
  - intros Hlt'.
    rewrite (Read_passes_source_result (file c) m) by lia.
    rewrite (read_len_min (file c) m Hp Hlt' Hm). reflexivity.
Qed.

(** Two reads of four bytes at the head of a chunk's payload. *)
Lemma Read_bytes_header (p : Chunk bytes.Reader) :
  typed p -> 0 <= bytes.i (file p) ->
  offset p + 8 <= size p -> bytes.i (file p) + 8 <= bytes.s_len (file p) ->
  let r := file p in
  let p1 := mkChunk (moved r (bytes.i r + 4)) (id p) (size p) (base p)
                    (offset p + 4) in
  let pad := pad_step p (offset p + 8) in
  let p2 := mkChunk (moved r (bytes.i r + 8 + pad)) (id p) (size p) (base p)
                    (uint32 (offset p + 8 + pad)) in
  Read p 4 = (slice r (bytes.i r) 4, None, p1) /\
  Read p1 4 = (slice r (bytes.i r + 4) 4, None, p2).
Proof.
  intros Hp Hi Hin Hav. pose proof Hp as (Hs & Hb & Ho).
  unfold is_uint32 in *. cbv zeta. split.
  - rewrite (Read_bytes p 4 Hp) by lia. cbv zeta.
    replace (Z.min (Z.min 4 (size p - offset p))
                   (bytes.s_len (file p) - bytes.i (file p))) with 4 by lia.
    assert (Hpad : pad_step p (offset p + 4) = 0).
    { unfold pad_step.
      destruct (Z.eqb_spec (offset p + 4) (size p)); [ lia | reflexivity ]. }
    rewrite Hpad, !Z.add_0_r.
    rewrite uint32_small by (unfold is_uint32; lia). reflexivity.
  - set (p1 := mkChunk (moved (file p) (bytes.i (file p) + 4))
                       (id p) (size p) (base p) (offset p + 4)).
    assert (Hp1 : typed p1) by (unfold typed, is_uint32, p1; cbn; lia).
    rewrite (Read_bytes p1 4 Hp1) by (unfold p1; cbn; lia).
    unfold p1.
    cbn [file id size base offset bytes.i bytes.s_len moved]. cbv zeta.
    replace (Z.min (Z.min 4 (size p - (offset p + 4)))
                   (bytes.s_len (file p) - (bytes.i (file p) + 4)))
      with 4 by lia.
    rewrite slice_moved.
    replace (bytes.i (file p) + 4 + 4) with (bytes.i (file p) + 8) by lia.
    replace (offset p + 4 + 4) with (offset p + 8) by lia.
    reflexivity.
Qed.

(** X15: construction inside a chunk.  For a parent with fields of
    32 bits and size below [2^32 - 1], over a [bytes.Reader] that stands
    at [base + cursor], with at least 8 bytes of payload left and the
    slice holding them: the header is read from the parent's payload at
    its cursor, the parent's cursor moves past the header (and past the
    pad byte when the header ends an odd-sized parent), the child's
    base is the parent's cursor, so the child's offsets are relative to
    the parent, and the source still stands at the parent's
    [base + cursor]. *)
Theorem nested_New (p : Chunk bytes.Reader) :
  typed p -> in_step p -> size p < 2 ^ 32 - 1 ->
  offset p + 8 <= size p ->
  base p + offset p + 8 <= bytes.s_len (file p) ->
  exists child,
    New p = (Some child, None, file child) /\
    Name child = slice (file p) (base p + offset p) 4 /\
    Size child = size_of_bits (slice (file p) (base p + offset p + 4) 4) /\
    offset (file child) = offset p + 8 + pad_step p (offset p + 8) /\
    base child = offset (file child) /\
    offset child = 0 /\
    in_step (file child).
Proof.
  intros Hp Hstep Hfit Hin Hav. pose proof Hp as (Hs & Hb & Ho).
  unfold is_uint32, in_step in *.
  destruct (Read_bytes_header p Hp ltac:(lia) Hin ltac:(lia)) as (Hr1 & Hr2).
  cbv zeta in Hr1, Hr2.
  set (pad := pad_step p (offset p + 8)) in *.
  assert (Hpad : 0 <= pad <= 1)
    by (unfold pad, pad_step;
        destruct ((offset p + 8 =? size p) && Z.odd (size p)); lia).
  rewrite (uint32_small (offset p + 8 + pad)) in Hr2
    by (unfold is_uint32; lia).
  set (p1 := mkChunk (moved (file p) (bytes.i (file p) + 4))
                     (id p) (size p) (base p) (offset p + 4)) in *.
  set (p2 := mkChunk (moved (file p) (bytes.i (file p) + 8 + pad))
                     (id p) (size p) (base p) (offset p + 8 + pad)) in *.
  assert (Hseek : exists e, Seek p2 0 1 = (offset p2, e, p2)).
  { destruct (Z_le_gt_dec (offset p2) (size p2)) as [Hok | Hpast].
    - exists None.
      assert (Hp2 : typed p2) by (unfold typed, is_uint32, p2; cbn; lia).
      assert (Ht : seek_target p2 0 1 = offset p2).
      { unfold seek_target. rewrite Z.add_0_l.
        apply int64_small. unfold is_int64, p2. cbn. lia. }
      rewrite (Seek_bytes p2 0 1 Hp2) by (rewrite Ht; unfold p2 in *; cbn in *; lia).
      rewrite Ht. unfold p2. cbn [file id size base offset moved
                                   bytes.s_len bytes.s_at].
      replace (base p + (offset p + 8 + pad))
        with (bytes.i (file p) + 8 + pad) by lia.
      reflexivity.
    - exists (Some InvalidSeekOffset).
      apply Seek_rejected. right. unfold seek_target. rewrite Z.add_0_l.
      rewrite int64_small; [ lia | ]. unfold is_int64, p2. cbn. lia. }
  destruct Hseek as (e & Hseek).
  exists (mkChunk p2 (slice (file p) (bytes.i (file p)) 4)
                  (size_of_bits (slice (file p) (bytes.i (file p) + 4) 4))
                  (uint32 (offset p2)) 0).
  split.
  - apply (New_header_read (S := Chunk bytes.Reader) p p1 p2 p2 _ _ _ e);
      try assumption; apply len_slice; lia.
  - unfold Name, Size.
    cbn [file id size base offset p2 bytes.i moved].
    rewrite uint32_small by (unfold is_uint32; lia).
    rewrite Hstep. repeat split; lia.
Qed.

(** ** The end of the source, and seeking back *)

(** X3: On a source with nothing left, construction returns no chunk and
    [io.EOF], and leaves the source as it was. *)
Theorem New_at_end_of_source (r : bytes.Reader) :
  bytes.s_len r <= bytes.i r -> New r = (None, Some EOF, r).
Proof.
  intros Hend.
  apply (New_tag_not_read r r [] (Some EOF)).
  - change (rs_Read r 4) with (bytes.Read r 4).
    apply bytes_Read_at_end, Hend.
  - right. discriminate.
Qed.

(** X13: A relative seek followed by the opposite relative seek brings the
    chunk and its source back to where they were. *)
Theorem Seek_relative_round_trip (c : Chunk bytes.Reader) (d : Z) :
  typed c -> in_step c -> offset c <= size c ->
  0 <= offset c + d <= size c ->
  fst (Seek c d 1) = (offset c + d, None) /\
  Seek (snd (Seek c d 1)) (- d) 1 = (offset c, None, c).
Proof.
  intros Hc Hstep Hle Hd. pose proof Hc as (Hs & Hb & Ho).
  unfold is_uint32, in_step in *.
  assert (Ht : seek_target c d 1 = offset c + d).
  { unfold seek_target. rewrite int64_small; [ lia | ].
    unfold is_int64. lia. }
  rewrite (Seek_bytes c d 1 Hc) by (rewrite Ht; lia).
  rewrite Ht. cbn [fst snd]. split; [ reflexivity | ].
  set (c1 := mkChunk (moved (file c) (base c + (offset c + d)))
                     (id c) (size c) (base c) (offset c + d)).
  assert (Hc1 : typed c1) by (unfold typed, is_uint32, c1; cbn; lia).
  assert (Ht1 : seek_target c1 (- d) 1 = offset c).
  { unfold seek_target, c1. cbn [offset]. rewrite int64_small; [ lia | ].
    unfold is_int64. lia. }
  rewrite (Seek_bytes c1 (- d) 1 Hc1) by (rewrite Ht1; unfold c1; cbn; lia).
  rewrite Ht1. unfold c1. cbn [file id size base offset].
  rewrite <- Hstep. destruct c as [[sl sa si] ci cs cb co]. reflexivity.
Qed.

(** ** The further properties on the test data *)

Lemma New_chunk_without_error_witness :
  @None error = None /\ file chunkTest = file chunkTest /\
  offset chunkTest = 0 /\ typed chunkTest.
Proof.
  apply (New_chunk_without_error (bytes.NewReader testString)
           (file chunkTest) chunkTest None).
  reflexivity.
Defined.

Lemma New_at_end_of_source_witness :
  New (bytes.reading testString 38)
  = (None, Some EOF, bytes.reading testString 38).
Proof. apply (New_at_end_of_source (bytes.reading testString 38)). cbn. lia. Defined.

Lemma Seek_result_witness :
  (@None error <> None ->
   offset (snd (Seek chunkFoo (-3) 2)) = offset chunkFoo) /\
  (@None error = None ->
   17 = offset (snd (Seek chunkFoo (-3) 2)) /\ 0 <= 17 <= size chunkFoo).
Proof.
  apply (Seek_result chunkFoo (snd (Seek chunkFoo (-3) 2)) (-3) 2 17 None).
  - unfold is_uint32. cbn. lia.
  - reflexivity.
Defined.

Lemma Read_drained_then_EOF_witness :
  offset (snd (Read chunkOddPipe 1)) = size chunkOddPipe /\
  forall m, Read (snd (Read chunkOddPipe 1)) m
            = ([], Some EOF, snd (Read chunkOddPipe 1)).
Proof.
  apply (Read_drained_then_EOF chunkOddPipe 1).
  - cbn. lia.
  - reflexivity.
  - right. reflexivity.
Defined.

(** The same on [TestBasicRead], where the size is even. *)
Example Read_drained_then_EOF_even :
  offset (snd (Read chunkTest 10)) = size chunkTest /\
  forall m, Read (snd (Read chunkTest 10)) m
            = ([], Some EOF, snd (Read chunkTest 10)).
Proof.
  split; [ reflexivity | ].
  intros m. apply Read_exhausted. reflexivity.
Qed.

Lemma source_follows_cursor_witness :
  bytes.i (file (snd (Read chunkOdd 1)))
  = base (snd (Read chunkOdd 1)) + offset (snd (Read chunkOdd 1)) \/
  (offset (snd (Read chunkOdd 1)) = size (snd (Read chunkOdd 1)) /\
   bytes.i (file (snd (Read chunkOdd 1))) = skip_pos (snd (Read chunkOdd 1))).
Proof.
  apply (source_follows_cursor (bytes.NewReader oddFile) (file chunkOdd)
           chunkOdd).
  - cbn. lia.
  - cbn. lia.
  - reflexivity.
  - cbn. lia.
  - apply reach_Read; [ apply reach_New | lia | cbn; lia ].
Defined.

Lemma Read_returns_payload_witness :
  fst (Read chunkFoo 4)
  = if base chunkFoo + offset chunkFoo <? bytes.s_len (file chunkFoo)
    then (slice (file chunkFoo) (base chunkFoo + offset chunkFoo)
                (Z.min (Z.min 4 (size chunkFoo - offset chunkFoo))
                       (bytes.s_len (file chunkFoo)
                        - (base chunkFoo + offset chunkFoo))),
          None)
    else ([], Some EOF).
Proof.
  apply (Read_returns_payload chunkFoo 4).
  - typed_chunk.
  - reflexivity.
  - cbn. lia.
  - lia.
Defined.

Lemma Read_split_witness :
  fst (fst (Read chunkFoo 2)) ++ fst (fst (Read (snd (Read chunkFoo 2)) 3))
  = fst (fst (Read chunkFoo (2 + 3))) /\
  snd (Read (snd (Read chunkFoo 2)) 3) = snd (Read chunkFoo (2 + 3)).
Proof.
  apply (Read_split chunkFoo 2 3); try typed_chunk; cbn; lia.
Defined.

Lemma Read_to_end_matches_Skip_witness :
  file (snd (Read chunkOdd 1)) = file (Skip chunkOdd).
Proof.
  apply (Read_to_end_matches_Skip chunkOdd 1);
    try typed_chunk; try reflexivity; cbn; lia.
Defined.

Lemma Skip_then_New_witness :
  exists next,
    New (file (Skip chunkTest)) = (Some next, None, file next) /\
    Name next
    = slice (file chunkTest) (round_up_even (base chunkTest + size chunkTest)) 4 /\
    Size next
    = size_of_bits
        (slice (file chunkTest)
               (round_up_even (base chunkTest + size chunkTest) + 4) 4) /\
    base next = round_up_even (base chunkTest + size chunkTest) + 8 /\
    offset next = 0 /\
    bytes.i (file next) = base next.
Proof.
  apply (Skip_then_New chunkTest); try typed_chunk; cbn; lia.
Defined.

Lemma Seek_then_Read_byte_witness :
  fst (Seek chunkFoo 8 0) = (8, None) /\
  fst (Read (snd (Seek chunkFoo 8 0)) 1)
  = ([bytes.s_at (file chunkFoo) (base chunkFoo + 8)], None).
Proof.
  apply (Seek_then_Read_byte chunkFoo 8); try typed_chunk; cbn; lia.
Defined.

Lemma Seek_relative_round_trip_witness :
  fst (Seek chunkFoo 5 1) = (offset chunkFoo + 5, None) /\
  Seek (snd (Seek chunkFoo 5 1)) (- (5)) 1 = (offset chunkFoo, None, chunkFoo).
Proof.
  apply (Seek_relative_round_trip chunkFoo 5);
    try typed_chunk; try reflexivity; cbn; lia.
Defined.

Lemma nested_Read_bounded_witness :
  (offset (file chunkIN1) = size (file chunkIN1) ->
   fst (Read chunkIN1 10) = ([], Some EOF)) /\
  (offset (file chunkIN1) < size (file chunkIN1) ->
   fst (Read chunkIN1 10)
   = fst (rs_Read (file (file chunkIN1))
                  (Z.min (Z.min 10 (size chunkIN1 - offset chunkIN1))
                         (size (file chunkIN1) - offset (file chunkIN1))))).
Proof.
  apply (nested_Read_bounded chunkIN1 10); try typed_chunk; cbn; lia.
Defined.

Lemma nested_New_witness :
  exists child,
    New chunkFoo = (Some child, None, file child) /\
    Name child = slice (file chunkFoo) (base chunkFoo + offset chunkFoo) 4 /\
    Size child
    = size_of_bits
        (slice (file chunkFoo) (base chunkFoo + offset chunkFoo + 4) 4) /\
    offset (file child)
    = offset chunkFoo + 8 + pad_step chunkFoo (offset chunkFoo + 8) /\
    base child = offset (file child) /\
    offset child = 0 /\
    in_step (file child).
Proof.
  apply (nested_New chunkFoo); try typed_chunk; try reflexivity; cbn; lia.
Defined.
